(** * PostGraphile websocket subscriptions ([src/postgraphile/http/subscriptions.ts])

    A shallow embedding of [enhanceHttpServerWithSubscriptions] and of the
    closures it installs, with the properties of the transport proved over it.

    Conventions.
    - A JavaScript object used as a dictionary is a [gmap string _]; a missing
      property ([undefined]) is [None].  Where the source assigns keys chosen
      by the client, the object also carries its prototype ([JS.object]).
    - A [Deferred] lives in a heap (a list); a handle is its index, so that
      two references to one promise are one handle.
    - An [async] function is cut at its [await]s: the synchronous prefix is a
      function returning the suspended task, and a resumption function runs
      the task to its next [await].
    - A [throw] (or a rejected promise) is the [Throw] case of [Result].
    - A string stands for a JavaScript string through its UTF-8 encoding.
      [String.prototype.toLowerCase] follows the Unicode case mappings and
      is a parameter of the definitions that call it. *)

From stdpp Require Import gmap strings list fin_maps pretty.

(** ** What the source uses of [graphql] *)
Module GraphQL.

(** A [GraphQLError], of which the source reads the message only. *)
Record GraphQLError := { message : string }.

End GraphQL.

(** ** JavaScript values and built-ins used by the source *)
Module JS.

(** An [Error] object.  [errors] is the property [onOperation] attaches to
    the error it throws; [new Error(message)] leaves it [undefined]. *)
Record Error := {
  message : string;
  errors : option (list GraphQL.GraphQLError) }.

Definition newError (message : string) : Error :=
  {| message := message; errors := None |}.

Inductive Result (A : Type) : Type :=
| Ok (a : A)
| Throw (e : Error).
Arguments Ok {A} a.
Arguments Throw {A} e.

#[global] Instance Result_ret : MRet Result := λ A a, Ok a.
#[global] Instance Result_bind : MBind Result := λ A B f r,
  match r with
  | Ok a => f a
  | Throw e => Throw e
  end.

(** A value as it can arrive in the JSON payload of a connection-init
    message, kept as what the source observes of it.  A number: whether it
    is zero (or NaN), and its [String()] rendering.  An object or array:
    its [String()] rendering, [None] when [String()] throws because the
    object has no primitive form (its [toString] and [valueOf] are not
    callable or return objects); and its own properties, [undefined] for
    one it does not have. *)
Inductive value : Type :=
| VUndefined
| VNull
| VBool (b : bool)
| VNum (zeroOrNaN : bool) (rendering : string)
| VStr (s : string)
| VObj (rendering : option string) (property : string → value).

(** [if (v)]: JavaScript truthiness. *)
Definition truthy (v : value) : bool :=
  match v with
  | VUndefined | VNull => false
  | VBool b => b
  | VNum z _ => negb z
  | VStr s => negb (String.eqb s "")
  | VObj _ _ => true
  end.

(** [if (s)] for an optional string. *)
Definition truthyStr (o : option string) : bool :=
  match o with
  | Some s => negb (String.eqb s "")
  | None => false
  end.

(** [String(v)].  It throws a [TypeError] for an object that cannot be
    converted to a primitive value. *)
Definition String_ (v : value) : Result string :=
  match v with
  | VUndefined => Ok "undefined"
  | VNull => Ok "null"
  | VBool true => Ok "true"
  | VBool false => Ok "false"
  | VNum _ r => Ok r
  | VStr s => Ok s
  | VObj (Some r) _ => Ok r
  | VObj None _ => Throw (newError "Cannot convert object to primitive value")
  end.

(** An object built by the source from [{}]: its own properties, and its
    prototype once an assignment to [__proto__] has replaced
    [Object.prototype] ([None] while it has not). *)
Record object := {
  own : gmap string value;
  prototype : option value }.

(** [{}] *)
Definition emptyObject : object := {| own := ∅; prototype := None |}.

(** Whether an assignment to [o['__proto__']] reaches the accessor of
    [Object.prototype].  It does not when [o] has an own property of that
    name, when the object that has become its prototype has one (a parsed
    JSON object can), or when its prototype has become [null]; the
    assignment then writes an own property of [o]. *)
Definition reachesProtoAccessor (o : object) : bool :=
  match own o !! "__proto__" with
  | Some _ => false
  | None =>
      match prototype o with
      | Some VNull => false
      | Some (VObj _ property) =>
          match property "__proto__" with
          | VUndefined => true
          | _ => false
          end
      | _ => true
      end
  end.

(** [o[key] = v].  Through the inherited accessor, the key [__proto__]
    makes an object or [null] the prototype and ignores any other value. *)
Definition setProperty (key : string) (v : value) (o : object) : object :=
  if String.eqb key "__proto__" && reachesProtoAccessor o then
    match v with
    | VObj _ _ | VNull => {| own := own o; prototype := Some v |}
    | _ => o
    end
  else {| own := <[key := v]> (own o); prototype := prototype o |}.

(** [o[key]], for a key that [Object.prototype] does not define: the own
    property, or else the own property of the prototype. *)
Definition getProperty (o : object) (key : string) : value :=
  match own o !! key with
  | Some v => v
  | None =>
      match prototype o with
      | Some (VObj _ property) => property key
      | _ => VUndefined
      end
  end.

(** The line feed of the source's ['\n']. *)
Definition LF : string := String (Ascii.ascii_of_nat 10) EmptyString.

(** [xs.join(sep)] *)
Fixpoint join (sep : string) (xs : list string) : string :=
  match xs with
  | [] => ""
  | [x] => x
  | x :: rest => x +:+ sep +:+ join sep rest
  end.

(** [hay.includes(needle)] *)
Definition occursIn (needle hay : string) : Prop :=
  ∃ before after, hay = before +:+ needle +:+ after.

End JS.

(** ** The objects the closures share

    The source stashes its per-connection data as ad hoc properties of the
    request and of the socket; each property is a field here, [None] while
    it is [undefined]. *)

(** [http.IncomingMessage], with the properties [onConnect] adds.  [res]
    tells whether [req.res] is present. *)
Record IncomingMessage := {
  url : option string;
  headers : gmap string string;
  res : bool;
  connectionParams : option (list (string * JS.value));
  normalizedConnectionParams : option JS.object }.

(** A [ServerResponse] made by [new ServerResponse(req)]: the objects are
    told apart by the order of their creation. *)
Definition ServerResponse : Type := nat.

(** [ws.WebSocket].  [closeCalls] counts the calls of [socket.close()]. *)
Record WebSocket := {
  postgraphileId : option N;
  __postgraphileReq : option IncomingMessage;
  __postgraphileRes : option ServerResponse;
  postgraphileHeaders : option (gmap string JS.value);
  closeCalls : nat }.

(** A socket as the handshake delivers it. *)
Definition newSocket : WebSocket :=
  {| postgraphileId := None; __postgraphileReq := None;
     __postgraphileRes := None; postgraphileHeaders := None;
     closeCalls := 0 |}.

(** The arguments of one call of [res.writeHead], by position.  A parameter
    the caller leaves out is [None]; the second one is never read, whatever
    is passed there: the reason phrase of [writeHead(status, phrase,
    headers)] or the headers object of [writeHead(status, headers)].  The
    status code is an integer, as the status codes of HTTP are. *)
Record WriteHead := {
  statusCode : option Z;
  _statusMessage : option JS.value;
  headersArg : option (gmap string string) }.

(** An express [RequestHandler], as far as the transport can observe it: the
    calls of [res.writeHead] it makes when invoked.  When and how it calls
    [next] is decided by the schedule ([Bridge.Next] below). *)
Record RequestHandler := {
  handler : string;
  writes : list WriteHead }.

(** The options the transport reads. *)
Record Options := {
  graphqlRoute : option string;
  websocketMiddlewares : option (list RequestHandler);
  middlewares : option (list RequestHandler) }.

(** ** Context Lifecycle Registry
    [keepalivePromisesByContextKey], [contextKey],
    [releaseContextForSocketAndOpId] and [addContextForSocketAndOpId]. *)
Module Registry.

(** The characters of the decimal rendering of a socket id. *)
Fixpoint digits (s : string) : Prop :=
  match s with
  | EmptyString => True
  | String c r => (48 ≤ Ascii.nat_of_ascii c ≤ 57) ∧ digits r
  end.

(** What happens to the promises and to the dictionary, in program order. *)
Inductive Effect :=
| Resolve (promise : nat)
| Store (key : string) (slot : option nat).

Section WithContext.
Context {mixed : Type}.

(** A [Deferred<void>] with the [context] property the source attaches to
    it.  [resolveCalls] counts the calls of [promise.resolve()]. *)
Record Deferred := {
  context : option mixed;
  resolveCalls : nat }.

(** The registry.  [heap] holds every promise created so far.  A slot of
    [keepalivePromisesByContextKey] is missing, [null] ([Some None]) or a
    promise; every key contains the separator, so none names a property of
    [Object.prototype]. *)
Record State := {
  heap : list Deferred;
  keepalivePromisesByContextKey : gmap string (option nat);
  effects : list Effect }.

Definition init : State :=
  {| heap := []; keepalivePromisesByContextKey := ∅; effects := [] |}.

(** [ws['postgraphileId'] + '|' + opId] *)
Definition contextKey (ws : WebSocket) (opId : string) : string :=
  match postgraphileId ws with
  | Some n => pretty n
  | None => "undefined"
  end +:+ "|" +:+ opId.

(** [promise.resolve()] *)
Definition resolve (d : Deferred) : Deferred :=
  {| context := context d; resolveCalls := S (resolveCalls d) |}.

Definition releaseContextForSocketAndOpId (ws : WebSocket) (opId : string)
    (st : State) : State :=
  match keepalivePromisesByContextKey st !! contextKey ws opId with
  | Some (Some promise) =>
      {| heap := alter resolve promise (heap st);
         keepalivePromisesByContextKey :=
           <[contextKey ws opId := None]> (keepalivePromisesByContextKey st);
         effects := effects st ++
           [Resolve promise; Store (contextKey ws opId) None] |}
  | _ => st
  end.

(** [deferred()]: a fresh pending promise; its handle is the next index. *)
Definition deferred (st : State) : State * nat :=
  ({| heap := heap st ++ [{| context := None; resolveCalls := 0 |}];
      keepalivePromisesByContextKey := keepalivePromisesByContextKey st;
      effects := effects st |},
   length (heap st)).

Definition setContext (c : mixed) (d : Deferred) : Deferred :=
  {| context := Some c; resolveCalls := resolveCalls d |}.

Definition addContextForSocketAndOpId (c : mixed) (ws : WebSocket)
    (opId : string) (st : State) : State * nat :=
  let st1 := releaseContextForSocketAndOpId ws opId st in
  let '(st2, promise) := deferred st1 in
  ({| heap := alter (setContext c) promise (heap st2);
      keepalivePromisesByContextKey :=
        <[contextKey ws opId := Some promise]>
          (keepalivePromisesByContextKey st2);
      effects := effects st2 ++ [Store (contextKey ws opId) (Some promise)] |},
   promise).

(** [addContextForSocketAndOpId] after its release step: the new promise is
    appended to the heap and stored under the key. *)
Definition stored (c : mixed) (key : string) (st : State) : State :=
  {| heap := heap st ++ [{| context := Some c; resolveCalls := 0 |}];
     keepalivePromisesByContextKey :=
       <[key := Some (length (heap st))]> (keepalivePromisesByContextKey st);
     effects := effects st ++ [Store key (Some (length (heap st)))] |}.

(** The registry is only reached through [getContext] (which acquires) and
    [onOperationComplete] (which releases); the context provider awaits the
    promise it is handed and does not resolve it. *)
Inductive Call :=
| Acquire (c : mixed) (ws : WebSocket) (opId : string)
| Release (ws : WebSocket) (opId : string).

Definition call (st : State) (op : Call) : State :=
  match op with
  | Acquire c ws opId => (addContextForSocketAndOpId c ws opId st).1
  | Release ws opId => releaseContextForSocketAndOpId ws opId st
  end.

Definition run (ops : list Call) : State := foldl call init ops.

(** The handle stored under a key. *)
Definition registered (st : State) (key : string) (promise : nat) : Prop :=
  keepalivePromisesByContextKey st !! key = Some (Some promise).

#[global] Instance registered_dec st key promise :
  Decision (registered st key promise).
Proof. unfold registered. apply _. Defined.

(** The number of [resolve()] calls a handle has received. *)
Definition resolved (st : State) (promise : nat) : option nat :=
  resolveCalls <$> heap st !! promise.

(** A live handle: created and not yet resolved. *)
Definition live (st : State) (promise : nat) : Prop :=
  resolved st promise = Some 0.

Record Inv (st : State) : Prop := {
  inv_registered_live :
    ∀ key promise, registered st key promise → live st promise;
  inv_one_key :
    ∀ key key' promise,
      registered st key promise → registered st key' promise → key = key';
  inv_no_leak :
    ∀ promise, live st promise → ∃ key, registered st key promise;
  inv_no_double_resolve :
    ∀ promise n, resolved st promise = Some n → n ≤ 1 }.

End WithContext.
Arguments Deferred : clear implicits.
Arguments State : clear implicits.
Arguments Call : clear implicits.

End Registry.

(** ** Pseudo-Response Bridge
    [applyMiddleware], [reqResFromSocket] and the [writeHead] override. *)
Module Bridge.
Import JS.

(** A line given to [console.error]: a literal, or the template literal of
    the status branch, kept as the text before and after the status code
    that the template renders as JavaScript renders a number. *)
Inductive LogLine :=
| Literal (message : string)
| Template (before : string) (statusCode : Z) (after : string).

Record World := {
  socket : WebSocket;
  console : list LogLine;
  responses : nat;
  invoked : list RequestHandler }.

(** [socket.close()] *)
Definition close (w : World) : World :=
  {| socket :=
       {| postgraphileId := postgraphileId (socket w);
          __postgraphileReq := __postgraphileReq (socket w);
          __postgraphileRes := __postgraphileRes (socket w);
          postgraphileHeaders := postgraphileHeaders (socket w);
          closeCalls := S (closeCalls (socket w)) |};
     console := console w;
     responses := responses w;
     invoked := invoked w |}.

(** [console.error(message)] *)
Definition console_error (message : LogLine) (w : World) : World :=
  {| socket := socket w;
     console := console w ++ [message];
     responses := responses w;
     invoked := invoked w |}.

Definition statusError (n : Z) : LogLine :=
  Template "Something used 'writeHead' to write a '" n
    "' error for websockets - check the middleware you're passing!".

Definition headersError : LogLine :=
  Literal "Passing headers to 'writeHead' is not supported with websockets currently - check the middleware you're passing".

(** [dummyRes.writeHead = (statusCode, _statusMessage, headers) => ...].
    [statusCode && statusCode > 200] is false for a missing status code and
    for [0]. *)
Definition writeHead (a : WriteHead) (w : World) : World :=
  let otherwise :=
    if headersArg a is Some _ then close (console_error headersError w)
    else w in
  match statusCode a with
  | Some n =>
      if negb (n =? 0)%Z && (200 <? n)%Z
      then close (console_error (statusError n) w)
      else otherwise
  | None => otherwise
  end.

(** [reqResFromSocket] between two [await]s. *)
Inductive Task :=
| AwaitingMiddleware (req : IncomingMessage) (dummyRes : ServerResponse)
    (rest : list RequestHandler)
| AwaitingApply (req : IncomingMessage) (dummyRes : ServerResponse)
| Returned (req : IncomingMessage) (res : ServerResponse)
| Rejected (message : string).

(** [middleware(req, res, err => ...)]: the call itself. *)
Definition invoke (m : RequestHandler) (w : World) : World :=
  foldl (λ w a, writeHead a w)
    {| socket := socket w; console := console w; responses := responses w;
       invoked := invoked w ++ [m] |}
    (writes m).

(** [applyMiddleware], up to its first [await]: the first middleware is
    called in the same turn; over an empty array the loop body never runs
    and the caller's [await] still suspends. *)
Definition applyMiddleware (ms : list RequestHandler) (req : IncomingMessage)
    (dummyRes : ServerResponse) (w : World) : World * Task :=
  match ms with
  | [] => (w, AwaitingApply req dummyRes)
  | m :: rest => (invoke m w, AwaitingMiddleware req dummyRes rest)
  end.

(** [options.websocketMiddlewares || options.middlewares], and the default
    [[]] of the parameter. *)
Definition chain (options : Options) : list RequestHandler :=
  match websocketMiddlewares options with
  | Some ms => ms
  | None => default [] (middlewares options)
  end.

(** [new ServerResponse(req)] *)
Definition newServerResponse (w : World) : World * ServerResponse :=
  ({| socket := socket w; console := console w;
      responses := S (responses w); invoked := invoked w |},
   responses w).

(** [socket['__postgraphileRes'] = dummyRes] *)
Definition cache (dummyRes : ServerResponse) (w : World) : World :=
  {| socket :=
       {| postgraphileId := postgraphileId (socket w);
          __postgraphileReq := __postgraphileReq (socket w);
          __postgraphileRes := Some dummyRes;
          postgraphileHeaders := postgraphileHeaders (socket w);
          closeCalls := closeCalls (socket w) |};
     console := console w;
     responses := responses w;
     invoked := invoked w |}.

(** [reqResFromSocket(socket)], up to its first [await] or its return. *)
Definition reqResFromSocket (options : Options) (w : World) : World * Task :=
  match __postgraphileReq (socket w) with
  | None => (w, Rejected "req could not be extracted")
  | Some req =>
      let dummyRes := __postgraphileRes (socket w) in
      if res req then
        (w, Rejected "Please get in touch with Benjie; we weren't expecting req.res to be present but we want to reserve it for future usage.")
      else
        match dummyRes with
        | Some dummyRes => (w, Returned req dummyRes)
        | None =>
            let '(w1, dummyRes) := newServerResponse w in
            applyMiddleware (chain options) req dummyRes w1
        end
  end.

(** The pending [await] of a task completes: the middleware in flight calls
    its callback with [err] ([None] for a falsy argument), or the empty
    chain resumes.  A settled task is left alone. *)
Definition next (err : option string) (t : Task) (w : World) : World * Task :=
  match t with
  | AwaitingMiddleware req dummyRes rest =>
      match err with
      | Some e => (w, Rejected e)
      | None =>
          match rest with
          | m :: rest' => (invoke m w, AwaitingMiddleware req dummyRes rest')
          | [] => (cache dummyRes w, Returned req dummyRes)
          end
      end
  | AwaitingApply req dummyRes => (cache dummyRes w, Returned req dummyRes)
  | Returned _ _ | Rejected _ => (w, t)
  end.

(** The event loop: operations call [reqResFromSocket] and middlewares
    complete, in any order. *)
Inductive Event :=
| CallReqRes
| Next (task : nat) (err : option string).

Record System := {
  world : World;
  tasks : list Task }.

Definition step (options : Options) (sys : System) (e : Event) : System :=
  match e with
  | CallReqRes =>
      let '(w, t) := reqResFromSocket options (world sys) in
      {| world := w; tasks := tasks sys ++ [t] |}
  | Next i err =>
      match tasks sys !! i with
      | Some t =>
          let '(w, t') := next err t (world sys) in
          {| world := w; tasks := <[i := t']> (tasks sys) |}
      | None => sys
      end
  end.

Definition exec (options : Options) (events : list Event) (sys : System)
    : System :=
  foldl (step options) sys events.

(** A socket after [onConnect]: the request is stashed, no pseudo-response
    is cached, nothing has run. *)
Definition connected (req : IncomingMessage) : System :=
  {| world :=
       {| socket :=
            {| postgraphileId := Some 1%N; __postgraphileReq := Some req;
               __postgraphileRes := None; postgraphileHeaders := None;
               closeCalls := 0 |};
          console := []; responses := 0; invoked := [] |};
     tasks := [] |}.

(** What a middleware call leaves alone: the stashed request, the cached
    pseudo-response and the response counter. *)
Definition same_session (w w' : World) : Prop :=
  __postgraphileReq (socket w') = __postgraphileReq (socket w)
  ∧ __postgraphileRes (socket w') = __postgraphileRes (socket w)
  ∧ responses w' = responses w
  ∧ invoked w' = invoked w.

(** One call of [reqResFromSocket] run to its end with every middleware
    calling [next()] without an error. *)
Fixpoint settle (fuel : nat) (t : Task) (w : World) : World * Task :=
  match fuel with
  | 0 => (w, t)
  | S fuel => let '(w', t') := next None t w in settle fuel t' w'
  end.

Definition pass (options : Options) (w : World) : World * Task :=
  let '(w1, t) := reqResFromSocket options w in
  settle (S (length (chain options))) t w1.

(** [n] operations served one after the other. *)
Fixpoint serve (options : Options) (n : nat) (w : World) : World :=
  match n with
  | 0 => w
  | S n => serve options n (pass options w).1
  end.

End Bridge.

(** ** Connection Handler: [lowerCaseKeys] and [onConnect] *)
Module Connect.
Import JS.

(** [const { socket, request } = connectionContext] *)
Record ConnectionContext := {
  socket : WebSocket;
  request : option IncomingMessage }.

(** [socket['postgraphileId'] = id] *)
Definition setPostgraphileId (id : N) (ws : WebSocket) : WebSocket :=
  {| postgraphileId := Some id;
     __postgraphileReq := __postgraphileReq ws;
     __postgraphileRes := __postgraphileRes ws;
     postgraphileHeaders := postgraphileHeaders ws;
     closeCalls := closeCalls ws |}.

(** [request['connectionParams'] = connectionParams] and
    [request['normalizedConnectionParams'] = normalizedConnectionParams] *)
Definition stash (params : list (string * value)) (normalized : object)
    (request : IncomingMessage) : IncomingMessage :=
  {| url := url request;
     headers := headers request;
     res := res request;
     connectionParams := Some params;
     normalizedConnectionParams := Some normalized |}.

(** [request.headers = hs], for the headers object updated in place. *)
Definition setHeaders (hs : gmap string string) (request : IncomingMessage)
    : IncomingMessage :=
  {| url := url request;
     headers := hs;
     res := res request;
     connectionParams := connectionParams request;
     normalizedConnectionParams := normalizedConnectionParams request |}.

(** The guarded assignment of [request.headers.authorization]: when the
    header is falsy and the normalized parameter is truthy, the header
    becomes [String(...)] of the parameter, and [String] may throw. *)
Definition backfill (normalized : object)
    (hs : gmap string string) : Result (gmap string string) :=
  if negb (truthyStr (hs !! "authorization"))
     && truthy (getProperty normalized "authorization")
  then
    authorization ← String_ (getProperty normalized "authorization");
    Ok (<["authorization" := authorization]> hs)
  else Ok hs.

(** [{ ...normalizedConnectionParams, ...request.headers }]: the own
    properties of both, the headers last. *)
Definition spread (normalized : object)
    (hs : gmap string string) : gmap string value :=
  (VStr <$> hs) ∪ own normalized.

Section WithToLowerCase.
(** [String.prototype.toLowerCase] *)
Context (toLowerCase : string → string).

(** [lowerCaseKeys(obj)].  The object is given as its properties in the
    order [Object.keys] lists them; when two keys lower-case to the same
    key, the later one overwrites the earlier one in [memo]. *)
Definition lowerCaseKeys (obj : list (string * value)) : object :=
  foldl (λ memo kv, setProperty (toLowerCase kv.1) kv.2 memo) emptyObject obj.

(** [onConnect(connectionParams, _socket, connectionContext)], with the
    counter [socketId] of the enclosing closure threaded through.
    [connectionParams] is [None] when the client sent no payload, and
    [Object.keys] then throws.  The request stashed on the socket is the
    request object of the context, so it shows the header written after it
    was stashed; when [String] throws, the request is already stashed, and
    neither the header nor [postgraphileHeaders] is written. *)
Definition onConnect (connectionParams : option (list (string * value)))
    (connectionContext : ConnectionContext) (socketId : N)
    : N * ConnectionContext * Result unit :=
  let socketId := (socketId + 1)%N in
  let socket := setPostgraphileId socketId (socket connectionContext) in
  match request connectionContext with
  | None =>
      (socketId, {| socket := socket; request := None |},
       Throw (newError "No request!"))
  | Some request =>
      match connectionParams with
      | None =>
          (socketId, {| socket := socket; request := Some request |},
           Throw (newError "Cannot convert undefined or null to object"))
      | Some params =>
          let normalizedConnectionParams := lowerCaseKeys params in
          let request := stash params normalizedConnectionParams request in
          match backfill normalizedConnectionParams (headers request) with
          | Throw e =>
              (socketId,
               {| socket :=
                    {| postgraphileId := postgraphileId socket;
                       __postgraphileReq := Some request;
                       __postgraphileRes := __postgraphileRes socket;
                       postgraphileHeaders := postgraphileHeaders socket;
                       closeCalls := closeCalls socket |};
                  request := Some request |},
               Throw e)
          | Ok hs =>
              let request := setHeaders hs request in
              (socketId,
               {| socket :=
                    {| postgraphileId := postgraphileId socket;
                       __postgraphileReq := Some request;
                       __postgraphileRes := __postgraphileRes socket;
                       postgraphileHeaders :=
                         Some (spread normalizedConnectionParams hs);
                       closeCalls := closeCalls socket |};
                  request := Some request |},
               Ok ())
          end
      end
  end.

(** The headers of the request once [onConnect] has returned or thrown. *)
Definition headersAfter (connectionParams : option (list (string * value)))
    (connectionContext : ConnectionContext) (socketId : N)
    : option (gmap string string) :=
  headers <$>
    request (onConnect connectionParams connectionContext socketId).1.2.

(** [normalizedConnectionParams['authorization']] as [onConnect] reads it;
    [undefined] when there are no parameters to normalize. *)
Definition authorizationParam
    (connectionParams : option (list (string * value))) : value :=
  match connectionParams with
  | Some params => getProperty (lowerCaseKeys params) "authorization"
  | None => VUndefined
  end.

End WithToLowerCase.
End Connect.

(** ** Operation Handler: [execute] and [onOperation] *)
Module Operation.
Import JS.

(** [execute: () => { throw new Error(...) }]: the arguments are ignored. *)
Definition execute {Args Value : Type} (_ : Args) : Result Value :=
  Throw (newError "Only subscriptions are allowed over websocket transport").

Section WithCollaborators.
(** The types of [graphql] and of the context provider are opaque here. *)
Context {GraphQLSchema DocumentNode ValidationRule Variables mixed Data : Type}.

(** An [ExecutionResult], with the [meta] property the formatter adds. *)
Record ExecutionResult := {
  data : option Data;
  resultErrors : option (list GraphQL.GraphQLError);
  meta : option (gmap string value) }.

(** [ExecutionParams] as the socket protocol layer hands them in.
    [formatResponse] reads the [meta] object of its operation when it is
    called. *)
Record ExecutionParams := {
  query : string + DocumentNode;
  variables : Variables;
  operationName : option string;
  context : gmap string mixed;
  schema : GraphQLSchema;
  formatResponse :
    option (gmap string value → ExecutionResult → ExecutionResult) }.

(** What the [postgraphile:validationRules] hook is given. *)
Record ValidationHookContext := {
  hookReq : IncomingMessage;
  hookRes : ServerResponse;
  hookVariables : Variables;
  hookOperationName : option string }.

(** [validate] and [parse] of [graphql]; [handleErrors] of the middleware;
    [isEmpty] of the request handler module; the hooks installed by the
    plugins; and [options.pluginHook], which is handed the [params] object
    and gives back that object as it has left it and the value it returns.
    [validate], [parse] and the hooks are calls into other modules and may
    throw. *)
Context (validate : GraphQLSchema → DocumentNode → list ValidationRule →
                    Result (list GraphQL.GraphQLError))
        (parse : string → Result DocumentNode)
        (handleErrors : list GraphQL.GraphQLError → IncomingMessage →
                        ServerResponse → list GraphQL.GraphQLError)
        (isEmpty : gmap string value → bool)
        (validationRulesHook : list ValidationRule → ValidationHookContext →
                               Result (list ValidationRule))
        (options_pluginHook :
           option (ExecutionParams →
                   Result (ExecutionParams * ExecutionParams))).

(** The closure [formatResponse] of one operation. *)
Definition formatResponseFor (req : IncomingMessage) (res : ServerResponse)
    (meta_ : gmap string value) (response : ExecutionResult)
    : ExecutionResult :=
  let response :=
    match resultErrors response with
    | Some es =>
        {| data := data response;
           resultErrors := Some (handleErrors es req res);
           meta := meta response |}
    | None => response
    end in
  if negb (isEmpty meta_) then
    {| data := data response; resultErrors := resultErrors response;
       meta := Some meta_ |}
  else response.

(** What [onOperation] has in hand when it reaches the dynamic rules. *)
Record Prepared := {
  finalParams : ExecutionParams;
  paramsSchema : GraphQLSchema;
  finalQuery : DocumentNode;
  moreValidationRules : list ValidationRule }.

(** [params] as [onOperation] has them when it reaches
    [options.pluginHook]: the schema overridden, the provider's context
    assigned over their own, and the formatter installed. *)
Definition received (params : ExecutionParams) (context_ : gmap string mixed)
    (schema_ : GraphQLSchema) (req : IncomingMessage) (res : ServerResponse)
    : ExecutionParams :=
  {| query := query params;
     variables := variables params;
     operationName := operationName params;
     context := context_ ∪ context params;
     schema := schema_;
     formatResponse := Some (formatResponseFor req res) |}.

(** [options.pluginHook ? options.pluginHook(..., params, ...) : params]:
    [params] as the call leaves them, and [hookedParams]. *)
Definition hooked (params : ExecutionParams)
    : Result (ExecutionParams * ExecutionParams) :=
  match options_pluginHook with
  | Some hook => hook params
  | None => Ok (params, params)
  end.

(** What the [postgraphile:validationRules] hook is called with. *)
Definition hookContext (params : ExecutionParams) (req : IncomingMessage)
    (res : ServerResponse) : ValidationHookContext :=
  {| hookReq := req; hookRes := res;
     hookVariables := variables params;
     hookOperationName := operationName params |}.

(** [onOperation] up to the call of the [postgraphile:validationRules]
    hook.  The three [await]ed results are arguments: the context from
    [getContext], the schema from [getGraphQLSchema] and the pair from
    [reqResFromSocket]. *)
Definition prepare (params : ExecutionParams)
    (awaitedContext : Result (gmap string mixed))
    (awaitedSchema : Result GraphQLSchema)
    (awaitedReqRes : Result (IncomingMessage * ServerResponse))
    : Result Prepared :=
  context_ ← awaitedContext;
  schema_ ← awaitedSchema;
  '(req, res) ← awaitedReqRes;
  '(params, hookedParams) ← hooked (received params context_ schema_ req res);
  query_ ← match query hookedParams with
            | inl text => parse text
            | inr document => Ok document
            end;
  rules ← validationRulesHook [] (hookContext params req res);
  Ok {| finalParams :=
          {| query := inr query_;
             variables := variables hookedParams;
             operationName := operationName hookedParams;
             context := context hookedParams;
             schema := schema hookedParams;
             formatResponse := formatResponse hookedParams |};
        paramsSchema := schema params;
        finalQuery := query_;
        moreValidationRules := rules |}.

(** The message of the aggregate error: the prefix, a line feed, and
    [validationErrors.map(e => e.message).join('\n')]. *)
Definition validationMessage (validationErrors : list GraphQL.GraphQLError)
    : string :=
  "Query validation failed: " +:+ LF +:+
  join LF (GraphQL.message <$> validationErrors).

(** The dynamic validation at the end of [onOperation]. *)
Definition validateDynamic (p : Prepared) : Result ExecutionParams :=
  if negb (length (moreValidationRules p) =? 0) then
    validationErrors ←
      validate (paramsSchema p) (finalQuery p) (moreValidationRules p);
    if negb (length validationErrors =? 0) then
      Throw {| message := validationMessage validationErrors;
               errors := Some validationErrors |}
    else Ok (finalParams p)
  else Ok (finalParams p).

Definition onOperation (params : ExecutionParams)
    (awaitedContext : Result (gmap string mixed))
    (awaitedSchema : Result GraphQLSchema)
    (awaitedReqRes : Result (IncomingMessage * ServerResponse))
    : Result ExecutionParams :=
  prepare params awaitedContext awaitedSchema awaitedReqRes ≫= validateDynamic.

End WithCollaborators.
End Operation.

(** ** Upgrade Router and installation *)
Module Upgrade.
Import JS.

(** The [pathname] property of a parsed URL. *)
Inductive Pathname :=
| PathnameUndefined
| PathnameNull
| PathnameString (s : string).

(** What [parseurl] returns when it returns an object. *)
Record Url := { pathname : Pathname }.

(** What the listener asks of the [ws] server: [wss.emit(event, ws, req)],
    and [wss.handleUpgrade(req, socket, head, callback)] with the callback
    the handshake calls with the new socket. *)
Inductive WssEmit :=
| Emit (event : string) (ws : WebSocket) (req : IncomingMessage).

Inductive Action (Duplex Buffer : Type) :=
| HandleUpgrade (req : IncomingMessage) (socket : Duplex) (head : Buffer)
    (callback : WebSocket → list WssEmit).
Arguments HandleUpgrade {Duplex Buffer}.

(** [options.graphqlRoute || '/graphql'] *)
Definition graphqlRouteOf (options : Options) : string :=
  match graphqlRoute options with
  | Some route => if String.eqb route "" then "/graphql" else route
  | None => "/graphql"
  end.

(** [const { pathname = '' } = parseUrl(req) || {}] *)
Definition pathnameOf (parsed : option Url) : Pathname :=
  match parsed with
  | Some url =>
      match pathname url with
      | PathnameUndefined => PathnameString ""
      | p => p
      end
  | None => PathnameString ""
  end.

(** [pathname === graphqlRoute] *)
Definition isGraphqlRoute (p : Pathname) (route : string) : bool :=
  match p with
  | PathnameString s => String.eqb s route
  | _ => false
  end.

(** The server object: its mark, the routes of the upgrade listeners this
    module has attached to it (each listener is [onUpgrade route]), and the
    number of subscription servers created for it. *)
Record Server := {
  __postgraphileSubscriptionsEnabled : bool;
  upgradeListeners : list string;
  subscriptionServers : nat }.

(** [enhanceHttpServerWithSubscriptions] between its [await]s. *)
Inductive Task :=
| AwaitingSchema (route : string)
| Returned
| Rejected (e : Error).

(** Up to [await getGraphQLSchema()]. *)
Definition enhanceHttpServerWithSubscriptions (websocketServer : Server)
    (options : Options) : Server * Task :=
  if __postgraphileSubscriptionsEnabled websocketServer then
    (websocketServer, Returned)
  else
    ({| __postgraphileSubscriptionsEnabled := true;
        upgradeListeners := upgradeListeners websocketServer;
        subscriptionServers := subscriptionServers websocketServer |},
     AwaitingSchema (graphqlRouteOf options)).

(** From the schema to the end: [websocketServer.on('upgrade', ...)] and
    [SubscriptionServer.create(...)]. *)
Definition resume {GraphQLSchema : Type} (awaitedSchema : Result GraphQLSchema)
    (t : Task) (websocketServer : Server) : Server * Task :=
  match t with
  | AwaitingSchema route =>
      match awaitedSchema with
      | Ok _ =>
          ({| __postgraphileSubscriptionsEnabled :=
                __postgraphileSubscriptionsEnabled websocketServer;
              upgradeListeners := upgradeListeners websocketServer ++ [route];
              subscriptionServers := S (subscriptionServers websocketServer) |},
           Returned)
      | Throw e => (websocketServer, Rejected e)
      end
  | _ => (websocketServer, t)
  end.

(** A whole call, the schema provider answering [awaitedSchema]. *)
Definition enhance {GraphQLSchema : Type} (awaitedSchema : Result GraphQLSchema)
    (options : Options) (websocketServer : Server) : Server :=
  let '(websocketServer, t) :=
    enhanceHttpServerWithSubscriptions websocketServer options in
  (resume awaitedSchema t websocketServer).1.

Section WithParseUrl.
(** [parseurl], and the stream and buffer types of the upgrade event. *)
Context {Duplex Buffer : Type} (parseUrl : IncomingMessage → option Url).

(** The listener of the ['upgrade'] event. *)
Definition onUpgrade (route : string) (req : IncomingMessage)
    (socket : Duplex) (head : Buffer) : list (Action Duplex Buffer) :=
  if isGraphqlRoute (pathnameOf (parseUrl req)) route then
    [HandleUpgrade req socket head (λ ws, [Emit "connection" ws req])]
  else [].

End WithParseUrl.
End Upgrade.

(** ** [getContext] and [onOperationComplete] over the registry *)
Module Lifecycle.
Import JS Registry.

Section WithContext.
Context {mixed : Type}.

(** [promise['context']] *)
Definition contextOf (st : State mixed) (promise : nat) : option mixed :=
  heap st !! promise ≫= context.

(** What [withPostGraphileContextFromReqRes] does with the callback it is
    handed, as far as [getContext] observes it: it calls the callback once
    with a context value, or it rejects without calling it. *)
Inductive Provided :=
| Yields (c : mixed)
| Fails (e : Error).

(** [getContext(socket, opId)], given the settled promise of
    [reqResFromSocket(socket)].  The provider is called with the pair and
    [{ singleStatement: true }]; the callback acquires the handle and
    resolves the outer promise with [promise['context']]. *)
Definition getContext
    (withPostGraphileContextFromReqRes :
       IncomingMessage → ServerResponse → bool → Provided)
    (awaitedReqRes : Result (IncomingMessage * ServerResponse))
    (socket : WebSocket) (opId : string) (st : State mixed)
    : State mixed * Result (option mixed) :=
  match awaitedReqRes with
  | Throw e => (st, Throw e)
  | Ok (req, res) =>
      match withPostGraphileContextFromReqRes req res true with
      | Yields c =>
          let '(st', promise) := addContextForSocketAndOpId c socket opId st in
          (st', Ok (contextOf st' promise))
      | Fails e => (st, Throw e)
      end
  end.

(** [onOperationComplete(socket, opId)] *)
Definition onOperationComplete (socket : WebSocket) (opId : string)
    (st : State mixed) : State mixed :=
  releaseContextForSocketAndOpId socket opId st.

(** Whether a registry call creates a promise. *)
Definition isAcquire (op : Call mixed) : bool :=
  match op with
  | Acquire _ _ _ => true
  | Release _ _ => false
  end.

End WithContext.
End Lifecycle.

(** ** Schedules of the bridge: what they count *)
Module Schedule.
Import JS Bridge.



(** The request a task holds. *)
Definition taskReq (t : Task) : option IncomingMessage :=
  match t with
  | AwaitingMiddleware req _ _ | AwaitingApply req _ | Returned req _ =>
      Some req
  | Rejected _ => None
  end.

(** The middlewares a task has still to call. *)
Definition owed (t : Task) : nat :=
  match t with
  | AwaitingMiddleware _ _ rest => length rest
  | _ => 0
  end.


(** In every task of a schedule, the request it holds is [req]. *)
Definition holdsOnly (req : IncomingMessage) (ts : list Task) : Prop :=
  ∀ t r, t ∈ ts → taskReq t = Some r → r = req.

(** The middlewares called, and those the passes under way have still to
    call, against one chain per pseudo-response created. *)
Definition withinBudget (options : Options) (sys : System) : Prop :=
  length (invoked (world sys)) + sum_list (owed <$> tasks sys)
  ≤ responses (world sys) * length (chain options).

Definition isRejected (t : Task) : bool :=
  match t with
  | Rejected _ => true
  | _ => false
  end.

(** A task run against the answers its [await]s receive, in order: each
    answer is what the middleware in flight passes to its callback. *)
Fixpoint answered (errs : list (option string)) (t : Task) (w : World)
    : World * Task :=
  match errs with
  | [] => (w, t)
  | err :: errs => let '(w', t') := next err t w in answered errs t' w'
  end.

(** One whole call of [reqResFromSocket], its middlewares answering
    [errs]. *)
Definition called (options : Options) (errs : list (option string))
    (w : World) : World * Task :=
  let '(w1, t) := reqResFromSocket options w in answered errs t w1.

(** The first error among the answers of the first [n] middlewares, none
    of the earlier ones having failed. *)
Fixpoint firstError (n : nat) (errs : list (option string)) : option string :=
  match n, errs with
  | S _, Some e :: _ => Some e
  | S n, None :: errs => firstError n errs
  | _, _ => None
  end.

End Schedule.

(** ** Connections one after the other *)
Module Connections.
Import JS Connect.

(** [onConnect] called for each connection in turn, the counter [socketId]
    carried from one call to the next. *)
Fixpoint connectAll (toLowerCase : string → string)
    (connections : list (option (list (string * value)) * ConnectionContext))
    (socketId : N) : list (ConnectionContext * Result unit) * N :=
  match connections with
  | [] => ([], socketId)
  | (connectionParams, connectionContext) :: rest =>
      let '(socketId', connectionContext', result) :=
        onConnect toLowerCase connectionParams connectionContext socketId in
      let '(results, last) := connectAll toLowerCase rest socketId' in
      ((connectionContext', result) :: results, last)
  end.

(** The world the bridge starts from once a connection is made. *)
Definition worldOf (connectionContext : ConnectionContext) : Bridge.World :=
  {| Bridge.socket := socket connectionContext;
     Bridge.console := []; Bridge.responses := 0; Bridge.invoked := [] |}.

End Connections.

(** ** The server and its upgrade listeners *)
Module Router.
Import JS Upgrade.

Section WithParseUrl.
Context {Duplex Buffer : Type} (parseUrl : IncomingMessage → option Url).


End WithParseUrl.

(** Whole calls of [enhanceHttpServerWithSubscriptions] one after the
    other, each with its options and the answer of its schema provider. *)
Definition enhanceAll {GraphQLSchema : Type}
    (calls : list (Result GraphQLSchema * Options))
    (websocketServer : Server) : Server :=
  foldl (λ srv call, enhance call.1 call.2 srv) websocketServer calls.

End Router.

(** ** Concrete sockets, requests and collaborators *)
Module Examples.
Import JS.

Definition socket1 : WebSocket :=
  {| postgraphileId := Some 1%N; __postgraphileReq := None;
     __postgraphileRes := None; postgraphileHeaders := None;
     closeCalls := 0 |}.

Definition request0 : IncomingMessage :=
  {| url := Some "/graphql"; headers := ∅; res := false;
     connectionParams := None; normalizedConnectionParams := None |}.

Definition session : RequestHandler := {| handler := "session"; writes := [] |}.

Definition options1 : Options :=
  {| graphqlRoute := None; websocketMiddlewares := Some [session];
     middlewares := None |}.

Definition emptyAuthorization : Connect.ConnectionContext :=
  {| Connect.socket := newSocket;
     Connect.request :=
       Some {| url := Some "/graphql";
               headers := {["authorization" := ""]}; res := false;
               connectionParams := None;
               normalizedConnectionParams := None |} |}.

Definition noAuthorization : Connect.ConnectionContext :=
  {| Connect.socket := newSocket; Connect.request := Some request0 |}.

Definition bearerAuthorization : Connect.ConnectionContext :=
  {| Connect.socket := newSocket;
     Connect.request :=
       Some {| url := Some "/graphql";
               headers := {["authorization" := "Bearer h"]}; res := false;
               connectionParams := None;
               normalizedConnectionParams := None |} |}.

(** [toLowerCase] on strings of ASCII characters: the letters [A] to [Z]
    are mapped to [a] to [z] and every other character is kept.  The keys
    of the examples are ASCII. *)
Definition lowerAscii (c : Ascii.ascii) : Ascii.ascii :=
  let n := Ascii.nat_of_ascii c in
  if (65 <=? n)%nat && (n <=? 90)%nat then Ascii.ascii_of_nat (n + 32) else c.

Fixpoint toLowerCaseAscii (s : string) : string :=
  match s with
  | EmptyString => EmptyString
  | String c r => String (lowerAscii c) (toLowerCaseAscii r)
  end.

(** A headers object as a middleware passes it to [writeHead]. *)
Definition htmlHeaders : value :=
  VObj (Some "[object Object]")
    (λ key, if String.eqb key "Content-Type" then VStr "text/html"
            else VUndefined).

(** A parameter object with no string form: its [toString] is not a
    function. *)
Definition noStringForm : value :=
  VObj None (λ key, if String.eqb key "toString" then VNum false "1"
                    else VUndefined).

(** Two rules that each reject the query. *)
Definition rejectAll (_ : unit) (_ : unit) (rules : list string)
    : Result (list GraphQL.GraphQLError) :=
  Ok ((λ r, {| GraphQL.message := r +:+ " rejected the query" |}) <$> rules).

Definition twoRules (rules : list string)
    (_ : @Operation.ValidationHookContext unit) : Result (list string) :=
  Ok (rules ++ ["depthLimit"; "costLimit"]).

Definition startParams : @Operation.ExecutionParams unit unit unit unit unit :=
  {| Operation.query := inr (); Operation.variables := ();
     Operation.operationName := None;
     Operation.context := ∅; Operation.schema := ();
     Operation.formatResponse := None |}.

Definition parsePlainUrl (req : IncomingMessage) : option Upgrade.Url :=
  (λ u, {| Upgrade.pathname := Upgrade.PathnameString u |}) <$> url req.

Definition defaults : Options :=
  {| graphqlRoute := None; websocketMiddlewares := None; middlewares := None |}.

Definition upgradeTo (path : string) : IncomingMessage :=
  {| url := Some path; headers := {["upgrade" := "websocket"]}; res := false;
     connectionParams := None; normalizedConnectionParams := None |}.

Definition plainServer : Upgrade.Server :=
  {| Upgrade.__postgraphileSubscriptionsEnabled := false;
     Upgrade.upgradeListeners := []; Upgrade.subscriptionServers := 0 |}.

Definition markedServer : Upgrade.Server :=
  {| Upgrade.__postgraphileSubscriptionsEnabled := true;
     Upgrade.upgradeListeners := []; Upgrade.subscriptionServers := 0 |}.

End Examples.

(** ** More concrete inputs *)
Module Cases.
Import JS.

(** Parameters arriving with a stale schema and a context of their own. *)
Definition staleParams : @Operation.ExecutionParams string unit unit nat unit :=
  {| Operation.query := inr (); Operation.variables := ();
     Operation.operationName := Some "feed";
     Operation.context := {["user" := 1; "role" := 2]};
     Operation.schema := "stale";
     Operation.formatResponse := None |}.

(** A validator that rejects under every rule. *)
Definition rejectEach (_ : string) (_ : unit) (rules : list string)
    : Result (list GraphQL.GraphQLError) :=
  Ok ((λ r, {| GraphQL.message := r +:+ " rejected the query" |}) <$> rules).

Definition oneRule (rules : list string)
    (_ : @Operation.ValidationHookContext unit) : Result (list string) :=
  Ok (rules ++ ["depthLimit"]).

Definition noRules (rules : list string)
    (_ : @Operation.ValidationHookContext unit) : Result (list string) :=
  Ok rules.

(** A server on which nothing has been installed. *)
Definition freshServer : Upgrade.Server :=
  {| Upgrade.__postgraphileSubscriptionsEnabled := false;
     Upgrade.upgradeListeners := []; Upgrade.subscriptionServers := 0 |}.

Definition routeOptions (route : string) : Options :=
  {| graphqlRoute := Some route; websocketMiddlewares := None;
     middlewares := None |}.

(** A parser that gives the URL as the path, and nothing for a request
    without a URL. *)
Definition parsePath (req : IncomingMessage) : option Upgrade.Url :=
  (λ u, {| Upgrade.pathname := Upgrade.PathnameString u |}) <$> url req.

Definition requestTo (path : option string) : IncomingMessage :=
  {| url := path; headers := ∅; res := false;
     connectionParams := None; normalizedConnectionParams := None |}.

End Cases.

(** * Proofs *)

(** ** The registry holds one live handle per key *)
Module RegistryFacts.
Import Registry Examples.

Section WithContext.
Context {mixed : Type}.
Implicit Types (st : State mixed) (ws : WebSocket) (opId key : string).

Lemma pretty_N_char_digit x : 48 ≤ Ascii.nat_of_ascii (pretty_N_char x) ≤ 57.
Proof. unfold pretty_N_char. repeat case_match; vm_compute; lia. Qed.

Lemma pretty_N_go_digits x s : digits s → digits (pretty_N_go x s).
Proof.
  revert s. induction (N.lt_wf_0 x) as [x _ IH]; intros s Hs.
  assert (x = 0 ∨ 0 < x)%N as [->|?] by lia; [by rewrite pretty_N_go_0|].
  rewrite pretty_N_go_step by done. apply IH; [by apply N.div_lt|].
  split; [apply pretty_N_char_digit|done].
Qed.

Lemma pretty_N_digits (n : N) : digits (pretty n).
Proof.
  unfold pretty, pretty_N. case_decide; [vm_compute; lia|].
  by apply pretty_N_go_digits.
Qed.

Lemma digits_bar_inj s1 s2 o1 o2 :
  digits s1 → digits s2 →
  s1 +:+ "|" +:+ o1 = s2 +:+ "|" +:+ o2 → s1 = s2 ∧ o1 = o2.
Proof.
  revert s2. induction s1 as [|c1 s1 IH]; intros [|c2 s2]; simpl.
  - intros _ _ Heq. by simplify_eq.
  - intros _ [Hc _] Heq. simplify_eq. vm_compute in Hc. lia.
  - intros [Hc _] _ Heq. simplify_eq. vm_compute in Hc. lia.
  - intros [_ H1] [_ H2] Heq. injection Heq as -> Heq.
    destruct (IH s2 H1 H2 Heq) as [-> ->]. done.
Qed.

Lemma digits_bar_undefined s o1 o2 :
  digits s → s +:+ "|" +:+ o1 ≠ "undefined" +:+ "|" +:+ o2.
Proof.
  destruct s as [|c s]; simpl; [done|].
  intros [Hc _] Heq. simplify_eq. vm_compute in Hc. lia.
Qed.

Lemma contextKey_inj ws ws' opId opId' :
  contextKey ws opId = contextKey ws' opId' →
  postgraphileId ws = postgraphileId ws' ∧ opId = opId'.
Proof.
  unfold contextKey.
  destruct (postgraphileId ws) as [n|], (postgraphileId ws') as [n'|].
  - intros Heq. apply digits_bar_inj in Heq as [Hn ->];
      [|apply pretty_N_digits..].
    by apply (inj pretty) in Hn as ->.
  - intros Heq. by apply digits_bar_undefined in Heq; [|apply pretty_N_digits].
  - intros Heq. symmetry in Heq.
    by apply digits_bar_undefined in Heq; [|apply pretty_N_digits].
  - intros Heq. split; [done|].
    simpl in Heq. by simplify_eq.
Qed.

Lemma resolved_alter_resolve st promise other :
  resolveCalls <$> alter resolve promise (heap st) !! other =
  if decide (promise = other) then S <$> resolved st other
  else resolved st other.
Proof.
  unfold resolved. case_decide as Heq.
  - subst. rewrite list_lookup_alter_eq. by destruct (heap st !! other).
  - by rewrite list_lookup_alter_ne.
Qed.

Lemma release_vacant ws opId st :
  (∀ promise, ¬ registered st (contextKey ws opId) promise) →
  releaseContextForSocketAndOpId ws opId st = st.
Proof.
  intros Hfree. unfold releaseContextForSocketAndOpId.
  destruct (keepalivePromisesByContextKey st !! contextKey ws opId)
    as [[promise|]|] eqn:Hk; try done.
  by destruct (Hfree promise).
Qed.

Lemma release_occupied ws opId st promise :
  registered st (contextKey ws opId) promise →
  releaseContextForSocketAndOpId ws opId st =
    {| heap := alter resolve promise (heap st);
       keepalivePromisesByContextKey :=
         <[contextKey ws opId := None]> (keepalivePromisesByContextKey st);
       effects := effects st ++
         [Resolve promise; Store (contextKey ws opId) None] |}.
Proof.
  unfold registered, releaseContextForSocketAndOpId. by intros ->.
Qed.

Lemma release_clears ws opId st promise :
  ¬ registered (releaseContextForSocketAndOpId ws opId st)
      (contextKey ws opId) promise.
Proof.
  unfold registered, releaseContextForSocketAndOpId.
  destruct (keepalivePromisesByContextKey st !! contextKey ws opId)
    as [[old|]|] eqn:Hk; simpl; rewrite ?lookup_insert_eq, ?Hk; congruence.
Qed.

Lemma release_Inv ws opId st :
  Inv st → Inv (releaseContextForSocketAndOpId ws opId st).
Proof.
  intros [Hlive Hone Hleak Hdouble].
  destruct (keepalivePromisesByContextKey st !! contextKey ws opId)
    as [[old|]|] eqn:Hk;
    try (rewrite release_vacant; [by constructor|];
         unfold registered; intros ?; congruence).
  rewrite (release_occupied _ _ _ old) by done.
  assert (Hold : live st old) by by eapply Hlive.
  constructor; unfold registered, live in *; simpl.
  - intros key promise Hreg.
    destruct (decide (key = contextKey ws opId)) as [->|Hne].
    { rewrite lookup_insert_eq in Hreg. congruence. }
    rewrite lookup_insert_ne in Hreg by done.
    unfold resolved at 1; simpl. rewrite resolved_alter_resolve.
    case_decide as Heq; [|by eapply Hlive].
    subst. destruct Hne. by eapply Hone.
  - intros key key' promise Hreg Hreg'.
    destruct (decide (key = contextKey ws opId)) as [->|Hne].
    { rewrite lookup_insert_eq in Hreg. congruence. }
    destruct (decide (key' = contextKey ws opId)) as [->|Hne'].
    { rewrite lookup_insert_eq in Hreg'. congruence. }
    rewrite lookup_insert_ne in Hreg by done.
    rewrite lookup_insert_ne in Hreg' by done.
    by eapply Hone.
  - intros promise. unfold resolved at 1; simpl.
    rewrite resolved_alter_resolve.
    case_decide as Heq.
    { subst. rewrite Hold. done. }
    intros Hp. destruct (Hleak _ Hp) as [key Hreg]. exists key.
    rewrite lookup_insert_ne; [done|]. intros <-. congruence.
  - intros promise n. unfold resolved at 1; simpl.
    rewrite resolved_alter_resolve.
    case_decide as Heq; [|by apply Hdouble].
    subst. rewrite Hold. simpl. intros [= <-]. lia.
Qed.

Lemma release_other_key ws opId st key :
  key ≠ contextKey ws opId →
  keepalivePromisesByContextKey (releaseContextForSocketAndOpId ws opId st) !! key
  = keepalivePromisesByContextKey st !! key.
Proof.
  intros Hne. unfold releaseContextForSocketAndOpId.
  destruct (keepalivePromisesByContextKey st !! contextKey ws opId)
    as [[old|]|]; simpl; try done.
  by rewrite lookup_insert_ne.
Qed.

Lemma release_length ws opId st :
  length (heap (releaseContextForSocketAndOpId ws opId st)) = length (heap st).
Proof.
  unfold releaseContextForSocketAndOpId.
  destruct (keepalivePromisesByContextKey st !! contextKey ws opId)
    as [[old|]|]; simpl; try done.
  apply length_alter.
Qed.

Lemma add_unfold c ws opId st :
  addContextForSocketAndOpId c ws opId st =
  (stored c (contextKey ws opId) (releaseContextForSocketAndOpId ws opId st),
   length (heap (releaseContextForSocketAndOpId ws opId st))).
Proof.
  unfold addContextForSocketAndOpId, deferred, stored. simpl.
  f_equal. f_equal.
  rewrite <- (Nat.add_0_r (length _)) at 1.
  by rewrite alter_app_r.
Qed.

Lemma resolved_stored c key st promise :
  resolved (stored c key st) promise =
  if decide (promise = length (heap st)) then Some 0 else resolved st promise.
Proof.
  unfold resolved, stored. simpl. case_decide as Heq.
  - subst. by rewrite list_lookup_middle.
  - destruct (decide (promise < length (heap st))) as [Hlt|Hge].
    + by rewrite lookup_app_l.
    + rewrite !lookup_ge_None_2; [done|lia|rewrite length_app; simpl; lia].
Qed.

Lemma live_in_range st promise : live st promise → promise < length (heap st).
Proof.
  unfold live, resolved. intros Hp.
  destruct (heap st !! promise) eqn:Hd; [|done].
  by eapply lookup_lt_Some.
Qed.

Lemma stored_Inv c key st :
  Inv st → (∀ promise, ¬ registered st key promise) → Inv (stored c key st).
Proof.
  intros [Hlive Hone Hleak Hdouble] Hfree.
  assert (Hfresh : ∀ k, ¬ registered st k (length (heap st))).
  { intros k Hreg. apply Hlive, live_in_range in Hreg. lia. }
  constructor; unfold live.
  - intros k promise Hreg. rewrite resolved_stored.
    case_decide; [done|]. unfold registered in Hreg. simpl in Hreg.
    destruct (decide (k = key)) as [->|Hne].
    { rewrite lookup_insert_eq in Hreg. congruence. }
    rewrite lookup_insert_ne in Hreg by done. by eapply Hlive.
  - intros k k' promise Hreg Hreg'. unfold registered in *. simpl in *.
    destruct (decide (k = key)) as [->|Hne];
      destruct (decide (k' = key)) as [->|Hne']; try done.
    + rewrite lookup_insert_eq in Hreg.
      rewrite lookup_insert_ne in Hreg' by done.
      injection Hreg as <-. by destruct (Hfresh k').
    + rewrite lookup_insert_eq in Hreg'.
      rewrite lookup_insert_ne in Hreg by done.
      injection Hreg' as <-. by destruct (Hfresh k).
    + rewrite lookup_insert_ne in Hreg by done.
      rewrite lookup_insert_ne in Hreg' by done. by eapply Hone.
  - intros promise. rewrite resolved_stored. unfold registered. simpl.
    case_decide as Heq.
    { intros _. exists key. subst. by rewrite lookup_insert_eq. }
    intros Hp. destruct (Hleak _ Hp) as [k Hreg]. exists k.
    rewrite lookup_insert_ne; [done|]. intros <-. by destruct (Hfree promise).
  - intros promise n. rewrite resolved_stored.
    case_decide; [intros [= <-]; lia|]. apply Hdouble.
Qed.

Lemma add_Inv c ws opId st :
  Inv st → Inv (addContextForSocketAndOpId c ws opId st).1.
Proof.
  intros Hinv. rewrite add_unfold. simpl.
  apply stored_Inv; [by apply release_Inv|]. apply release_clears.
Qed.

Lemma init_Inv : Inv (@init mixed).
Proof.
  constructor; unfold registered, live, resolved; simpl.
  - intros ??. by rewrite lookup_empty.
  - intros ???. by rewrite lookup_empty.
  - done.
  - done.
Qed.

Lemma call_Inv st op : Inv st → Inv (call st op).
Proof. destruct op; simpl; [apply add_Inv|apply release_Inv]. Qed.

Lemma run_Inv ops : Inv (run (mixed:=mixed) ops).
Proof.
  unfold run. induction ops as [|op ops IH] using rev_ind; simpl.
  - apply init_Inv.
  - rewrite foldl_snoc. by apply call_Inv.
Qed.

Lemma resolved_release ws opId st promise :
  resolved (releaseContextForSocketAndOpId ws opId st) promise =
  if decide (registered st (contextKey ws opId) promise)
  then S <$> resolved st promise else resolved st promise.
Proof.
  case_decide as Hreg.
  - rewrite (release_occupied _ _ _ promise) by done.
    unfold resolved at 1; simpl. rewrite resolved_alter_resolve.
    by case_decide.
  - destruct (keepalivePromisesByContextKey st !! contextKey ws opId)
      as [[old|]|] eqn:Hk.
    + rewrite (release_occupied _ _ _ old) by done.
      unfold resolved at 1; simpl. rewrite resolved_alter_resolve.
      case_decide; [|done]. subst. by destruct Hreg.
    + rewrite release_vacant; [done|]. unfold registered. congruence.
    + rewrite release_vacant; [done|]. unfold registered. congruence.
Qed.

(** C1. In every state the registry can reach, every live handle is stored
    under exactly one key and every handle no longer stored has been resolved
    exactly once ([Inv]); and acquiring a handle for a key that holds a live
    handle resolves that handle once, clears the slot and only then stores
    the new handle, touching no other handle: the handle of any other
    (socket, operation id) pair stays stored and live. *)
Theorem one_live_handle_per_key (ops : list (Call mixed)) c ws opId :
  let st := run ops in
  let key := contextKey ws opId in
  let st' := (addContextForSocketAndOpId c ws opId st).1 in
  let new := (addContextForSocketAndOpId c ws opId st).2 in
  Inv st ∧ Inv st' ∧
  registered st' key new ∧ live st' new ∧ resolved st new = None ∧
  (∀ promise, promise ≠ new → ¬ registered st key promise →
     resolved st' promise = resolved st promise) ∧
  (∀ old, registered st key old →
     live st old ∧ resolved st' old = Some 1 ∧
     (∀ k, ¬ registered st' k old) ∧
     effects st' = effects st ++
       [Resolve old; Store key None; Store key (Some new)]) ∧
  ((∀ old, ¬ registered st key old) →
     effects st' = effects st ++ [Store key (Some new)]) ∧
  (∀ ws' opId' other,
     postgraphileId ws' ≠ postgraphileId ws ∨ opId' ≠ opId →
     registered st (contextKey ws' opId') other →
     registered st' (contextKey ws' opId') other ∧ live st' other).
Proof.
  intros st key st' new.
  assert (Hst : Inv st) by apply run_Inv.
  assert (Hst' : Inv st') by by apply add_Inv.
  assert (Hnew : new = length (heap st)).
  { unfold new. rewrite add_unfold. simpl. apply release_length. }
  assert (Hnew' :
    new = length (heap (releaseContextForSocketAndOpId ws opId st))).
  { by rewrite release_length. }
  assert (Hfst :
    st' = stored c key (releaseContextForSocketAndOpId ws opId st)).
  { unfold st'. by rewrite add_unfold. }
  assert (Hframe : ∀ promise, promise ≠ new → ¬ registered st key promise →
            resolved st' promise = resolved st promise).
  { intros promise Hne Hfree.
    rewrite Hfst, resolved_stored, <- Hnew'. case_decide; [done|].
    rewrite resolved_release. by case_decide. }
  split_and!; try done.
  - rewrite Hfst, Hnew'. unfold registered, stored. simpl.
    by rewrite lookup_insert_eq.
  - unfold live. rewrite Hfst, resolved_stored, <- Hnew'. by case_decide.
  - unfold resolved. rewrite lookup_ge_None_2; [done|lia].
  - intros old Hold.
    assert (Hlive : live st old) by by eapply inv_registered_live.
    assert (Hres : resolved st' old = Some 1).
    { rewrite Hfst, resolved_stored, <- Hnew'.
      pose proof (live_in_range _ _ Hlive). case_decide; [lia|].
      rewrite resolved_release. case_decide; [|done]. by rewrite Hlive. }
    split_and!; try done.
    + intros k Hk. apply (inv_registered_live _ Hst') in Hk.
      unfold live in Hk. congruence.
    + rewrite Hfst. unfold stored. simpl. rewrite <- Hnew'.
      rewrite (release_occupied _ _ _ old) by done. simpl.
      by rewrite <- app_assoc.
  - intros Hfree. rewrite Hfst. unfold stored. simpl. rewrite <- Hnew'.
    by rewrite release_vacant.
  - intros ws' opId' other Hpair Hother.
    assert (Hkey : contextKey ws' opId' ≠ key).
    { intros [??]%contextKey_inj. destruct Hpair; congruence. }
    assert (Hlive : live st other) by by eapply inv_registered_live.
    pose proof (live_in_range _ _ Hlive).
    split.
    + rewrite Hfst. unfold registered, stored. simpl.
      rewrite lookup_insert_ne by done. by rewrite release_other_key.
    + unfold live. rewrite Hframe; [done|lia|].
      intros Hclash. by apply Hkey, (inv_one_key _ Hst _ _ other).
Qed.

(** C4. Releasing a key twice in a row leaves the registry as releasing it
    once does, and releasing a key that was never created or is already
    released changes nothing; the function is total, so no error is raised. *)
Theorem release_idempotent ws opId st :
  releaseContextForSocketAndOpId ws opId
    (releaseContextForSocketAndOpId ws opId st)
  = releaseContextForSocketAndOpId ws opId st
  ∧ (keepalivePromisesByContextKey st !! contextKey ws opId = None
     ∨ keepalivePromisesByContextKey st !! contextKey ws opId = Some None →
     releaseContextForSocketAndOpId ws opId st = st).
Proof.
  split.
  - apply release_vacant. apply release_clears.
  - intros Hk. apply release_vacant. unfold registered.
    intros promise. destruct Hk; congruence.
Qed.

End WithContext.

Lemma one_live_handle_per_key_witness :
  registered (run [Acquire "ctxA" socket1 "1"]) (contextKey socket1 "1") 0
  ∧ resolved
      (addContextForSocketAndOpId "ctxB" socket1 "1"
         (run [Acquire "ctxA" socket1 "1"])).1 0 = Some 1
  ∧ effects (addContextForSocketAndOpId "ctxA" socket1 "1" (run [])).1
    = [Store "1|1" (Some 0)]
  ∧ live
      (addContextForSocketAndOpId "ctxB" socket1 "2"
         (run [Acquire "ctxA" socket1 "1"])).1 0.
Proof.
  split_and!; [reflexivity| | |].
  - destruct (one_live_handle_per_key [Acquire "ctxA" socket1 "1"]
                "ctxB" socket1 "1") as (_ & _ & _ & _ & _ & _ & Hold & _).
    apply (Hold 0). reflexivity.
  - destruct (one_live_handle_per_key (mixed:=string) []
                "ctxA" socket1 "1")
      as (_ & _ & _ & _ & _ & _ & _ & Hvacant & _).
    apply Hvacant. intros old. discriminate.
  - destruct (one_live_handle_per_key [Acquire "ctxA" socket1 "1"]
                "ctxB" socket1 "2") as (_ & _ & _ & _ & _ & _ & _ & _ & Hother).
    apply (Hother socket1 "1" 0); [right; discriminate|reflexivity].
Defined.

Lemma release_idempotent_witness :
  keepalivePromisesByContextKey (@init string) !! contextKey socket1 "7" = None
  ∧ releaseContextForSocketAndOpId socket1 "7" (@init string) = init
  ∧ releaseContextForSocketAndOpId socket1 "1"
      (run [Acquire "ctxA" socket1 "1"; Release socket1 "1"])
    = run [Acquire "ctxA" socket1 "1"; Release socket1 "1"].
Proof.
  split_and!; [reflexivity| |].
  - apply (release_idempotent socket1 "7" init). left. reflexivity.
  - apply (release_idempotent socket1 "1"
             (run [Acquire "ctxA" socket1 "1"; Release socket1 "1"])).
    right. reflexivity.
Defined.

End RegistryFacts.

(** ** The pseudo-response and the middleware chain *)
Module BridgeFacts.
Import JS Bridge Examples.

(** C6. The headers branch of the [writeHead] override reads its third
    parameter only.  Called as [writeHead(status, headers)], the form in
    which the headers object is the second argument, with no status code
    or one of 200 or lower, it logs nothing and does not close the socket,
    whatever the headers are; the same status code with headers in the
    third position is logged and closes the socket. *)
Theorem writeHead_two_argument_headers (status : option Z) (headers : value)
    (hs : gmap string string) (w : World) :
  status = None ∨ (∃ n, status = Some n ∧ (n ≤ 200)%Z) →
  let twoArguments :=
    {| statusCode := status; _statusMessage := Some headers;
       headersArg := None |} in
  let threeArguments :=
    {| statusCode := status; _statusMessage := Some (VStr "OK");
       headersArg := Some hs |} in
  writeHead twoArguments w = w
  ∧ console (writeHead twoArguments w) = console w
  ∧ closeCalls (socket (writeHead twoArguments w)) = closeCalls (socket w)
  ∧ console (writeHead threeArguments w) = console w ++ [headersError]
  ∧ closeCalls (socket (writeHead threeArguments w))
    = S (closeCalls (socket w)).
Proof.
  intros Hstatus twoArguments threeArguments.
  assert (Htwo : writeHead twoArguments w = w).
  { unfold writeHead, twoArguments. simpl.
    destruct Hstatus as [->|(n & -> & Hle)]; [done|].
    assert ((200 <? n)%Z = false) as -> by lia. by rewrite andb_false_r. }
  assert (Hthree : writeHead threeArguments w
                   = close (console_error headersError w)).
  { unfold writeHead, threeArguments. simpl.
    destruct Hstatus as [->|(n & -> & Hle)]; [done|].
    assert ((200 <? n)%Z = false) as -> by lia. by rewrite andb_false_r. }
  rewrite Htwo, Hthree. by split_and!.
Qed.

Lemma writeHead_two_argument_headers_witness :
  let w := world (connected request0) in
  writeHead {| statusCode := Some 200%Z; _statusMessage := Some htmlHeaders;
               headersArg := None |} w = w
  ∧ closeCalls (socket (writeHead
      {| statusCode := Some 200%Z; _statusMessage := Some (VStr "OK");
         headersArg := Some {["Content-Type" := "text/html"]} |} w)) = 1.
Proof.
  intros w.
  destruct (writeHead_two_argument_headers (Some 200%Z) htmlHeaders
              {["Content-Type" := "text/html"]} w)
    as (Hsame & _ & _ & _ & Hclosed).
  { right. exists 200%Z. split; [reflexivity|lia]. }
  split; [exact Hsame|exact Hclosed].
Defined.

(** C10. The [writeHead] override, called with no status code or with a
    status code of 200 or lower, and with no headers, changes nothing: no
    log line, no [close], no write. *)
Theorem writeHead_success_noop (a : WriteHead) (w : World) :
  (statusCode a = None ∨ ∃ n, statusCode a = Some n ∧ (n ≤ 200)%Z) →
  headersArg a = None →
  writeHead a w = w.
Proof.
  intros Hstatus Hh. unfold writeHead. rewrite Hh.
  destruct Hstatus as [->|(n & -> & Hle)]; [done|].
  assert ((200 <? n)%Z = false) as -> by lia.
  by rewrite andb_false_r.
Qed.

Lemma writeHead_success_noop_witness :
  let a := {| statusCode := Some 200%Z; _statusMessage := Some (JS.VStr "OK");
              headersArg := None |} in
  let w := world (connected request0) in
  writeHead a w = w.
Proof.
  intros a w. apply (writeHead_success_noop a w); [|reflexivity].
  right. exists 200%Z. split; [reflexivity|lia].
Defined.

Lemma writeHead_same_session a w : same_session w (writeHead a w).
Proof.
  unfold writeHead.
  destruct (statusCode a) as [n|], (headersArg a);
    try destruct (negb (n =? 0)%Z && (200 <? n)%Z); by repeat split.
Qed.

Lemma writes_same_session ws w :
  same_session w (foldl (λ w a, writeHead a w) w ws).
Proof.
  revert w. induction ws as [|a ws IH]; intros w; simpl; [by repeat split|].
  destruct (writeHead_same_session a w) as (H1 & H2 & H3 & H4).
  destruct (IH (writeHead a w)) as (H1' & H2' & H3' & H4').
  repeat split; congruence.
Qed.

Lemma invoke_spec m w :
  __postgraphileReq (socket (invoke m w)) = __postgraphileReq (socket w)
  ∧ __postgraphileRes (socket (invoke m w)) = __postgraphileRes (socket w)
  ∧ responses (invoke m w) = responses w
  ∧ invoked (invoke m w) = invoked w ++ [m].
Proof.
  unfold invoke.
  match goal with |- context [foldl ?f ?w0 ?l] =>
    destruct (writes_same_session l w0) as (H1 & H2 & H3 & H4) end.
  by repeat split.
Qed.

(** A pass whose middlewares all succeed calls the rest of the chain in
    order and then caches the pseudo-response. *)
Lemma settle_middlewares req dummyRes rest : ∀ fuel w,
  length rest < fuel →
  ∃ w', settle fuel (AwaitingMiddleware req dummyRes rest) w
        = (w', Returned req dummyRes)
    ∧ __postgraphileReq (socket w') = __postgraphileReq (socket w)
    ∧ __postgraphileRes (socket w') = Some dummyRes
    ∧ responses w' = responses w
    ∧ invoked w' = invoked w ++ rest.
Proof.
  assert (Hdone : ∀ fuel w, settle fuel (Returned req dummyRes) w
                           = (w, Returned req dummyRes)).
  { induction fuel as [|fuel IH]; intros w; simpl; [done|apply IH]. }
  induction rest as [|m rest IH]; intros [|fuel] w Hfuel; simpl in *; try lia.
  - rewrite Hdone. eexists. split; [done|]. simpl.
    by rewrite app_nil_r.
  - destruct (IH fuel (invoke m w)) as (w' & -> & H1 & H2 & H3 & H4); [lia|].
    destruct (invoke_spec m w) as (I1 & I2 & I3 & I4).
    exists w'. rewrite H1, H3, H4, I1, I3, I4, <- app_assoc. done.
Qed.

Lemma settle_apply ms req dummyRes fuel w :
  length ms < fuel →
  ∃ w', (let '(w1, t) := applyMiddleware ms req dummyRes w in settle fuel t w1)
        = (w', Returned req dummyRes)
    ∧ __postgraphileReq (socket w') = __postgraphileReq (socket w)
    ∧ __postgraphileRes (socket w') = Some dummyRes
    ∧ invoked w' = invoked w ++ ms.
Proof.
  intros Hfuel. destruct ms as [|m rest]; unfold applyMiddleware.
  - destruct fuel as [|fuel]; [simpl in Hfuel; lia|].
    exists (cache dummyRes w). split_and!; try done.
    + simpl. clear Hfuel. generalize (cache dummyRes w).
      induction fuel as [|fuel IH]; intros w'; simpl; [done|apply IH].
    + simpl. by rewrite app_nil_r.
  - destruct (settle_middlewares req dummyRes rest fuel (invoke m w))
      as (w' & -> & H1 & H2 & _ & H4); [simpl in Hfuel; lia|].
    destruct (invoke_spec m w) as (I1 & _ & _ & I4).
    exists w'. rewrite H1, H2, H4, I1, I4, <- app_assoc. done.
Qed.

Lemma pass_first options req w :
  __postgraphileReq (socket w) = Some req → res req = false →
  __postgraphileRes (socket w) = None →
  ∃ w', pass options w = (w', Returned req (responses w))
    ∧ __postgraphileReq (socket w') = Some req
    ∧ __postgraphileRes (socket w') = Some (responses w)
    ∧ invoked w' = invoked w ++ chain options.
Proof.
  intros Hreq Hres Hcache. unfold pass, reqResFromSocket.
  rewrite Hreq, Hres, Hcache. cbn -[settle applyMiddleware].
  match goal with |- context [applyMiddleware ?ms _ ?d ?w1] =>
    destruct (settle_apply ms req d (S (length ms)) w1)
      as (w' & Hrun & H1 & H2 & H4); [lia|] end.
  exists w'. split; [|by rewrite H1, H2, H4].
  revert Hrun. by destruct (applyMiddleware _ _ _ _).
Qed.

Lemma reqRes_cached options req r w :
  __postgraphileReq (socket w) = Some req → res req = false →
  __postgraphileRes (socket w) = Some r →
  reqResFromSocket options w = (w, Returned req r).
Proof.
  intros Hreq Hres Hcache. unfold reqResFromSocket.
  by rewrite Hreq, Hres, Hcache.
Qed.

Lemma pass_cached options req r w :
  __postgraphileReq (socket w) = Some req → res req = false →
  __postgraphileRes (socket w) = Some r →
  pass options w = (w, Returned req r).
Proof.
  intros Hreq Hres Hcache. unfold pass.
  rewrite (reqRes_cached _ req r) by done.
  generalize (S (length (chain options))). intros fuel.
  induction fuel as [|fuel IH]; simpl; [done|apply IH].
Qed.

Lemma serve_cached options req r n w :
  __postgraphileReq (socket w) = Some req → res req = false →
  __postgraphileRes (socket w) = Some r →
  serve options n w = w.
Proof.
  intros Hreq Hres Hcache. induction n as [|n IH]; simpl; [done|].
  by rewrite (pass_cached _ req r).
Qed.

(** C2, as stated, fails: two operations that ask for the pair before the
    first middleware pass has completed each start a pass, so the one
    middleware of the chain is called twice and each operation gets a
    pseudo-response of its own. *)
Lemma middleware_chain_runs_twice :
  let sys := exec options1 [CallReqRes; CallReqRes; Next 0 None; Next 1 None]
               (connected request0) in
  invoked (world sys) = [session; session]
  ∧ tasks sys = [Returned request0 0; Returned request0 1]
  ∧ length (invoked (world sys)) ≠ length (chain options1).
Proof. vm_compute. split_and!; [reflexivity|reflexivity|lia]. Qed.

(** C2, amended. Once a pass has completed and cached the pseudo-response,
    a request for the pair returns the cached pair at once and calls no
    middleware; so operations served one after the other on a connected
    socket run the chain exactly once, whatever their number. *)
Theorem middleware_chain_once_sequential options req w n :
  __postgraphileReq (socket w) = Some req → res req = false →
  __postgraphileRes (socket w) = None →
  invoked (serve options (S n) w) = invoked w ++ chain options
  ∧ (pass options (serve options (S n) w)).2 = Returned req (responses w)
  ∧ (∀ w' r, __postgraphileReq (socket w') = Some req →
       __postgraphileRes (socket w') = Some r →
       reqResFromSocket options w' = (w', Returned req r)).
Proof.
  intros Hreq Hres Hcache.
  destruct (pass_first options req w) as (w1 & Hpass & H1 & H2 & H3); try done.
  simpl. rewrite Hpass. simpl.
  rewrite (serve_cached _ req (responses w)) by done.
  split_and!; [done| |].
  - by rewrite (pass_cached _ req (responses w)).
  - intros w' r Hreq' Hcache'. by apply reqRes_cached.
Qed.

Lemma middleware_chain_once_sequential_witness :
  invoked (serve options1 3 (world (connected request0))) = [session].
Proof.
  apply (middleware_chain_once_sequential options1 request0
           (world (connected request0)) 2); reflexivity.
Defined.

End BridgeFacts.

(** ** Header precedence on connect *)
Module ConnectFacts.
Import JS Connect Examples.

Lemma backfill_cases normalized hs :
  (truthyStr (hs !! "authorization") = false
   ∧ truthy (getProperty normalized "authorization") = true
   ∧ ((∃ s, String_ (getProperty normalized "authorization") = Ok s
          ∧ backfill normalized hs = Ok (<["authorization" := s]> hs))
      ∨ ∃ e, String_ (getProperty normalized "authorization") = Throw e
          ∧ backfill normalized hs = Throw e))
  ∨ ((truthyStr (hs !! "authorization") = true
      ∨ truthy (getProperty normalized "authorization") = false)
     ∧ backfill normalized hs = Ok hs).
Proof.
  unfold backfill.
  destruct (truthyStr (hs !! "authorization")) eqn:Hh; simpl; [right; auto|].
  destruct (truthy (getProperty normalized "authorization")) eqn:Hp;
    [|right; auto].
  left. split_and!; [done..|].
  destruct (String_ _) as [s|e]; [left|right]; by eexists.
Qed.

Lemma backfill_other normalized hs hs' k :
  backfill normalized hs = Ok hs' → k ≠ "authorization" → hs' !! k = hs !! k.
Proof.
  intros Hb Hk.
  destruct (backfill_cases normalized hs)
    as [(_ & _ & [(s & _ & Hs)|(e & _ & Hs)])|[_ Hs]];
    rewrite Hs in Hb; simplify_eq; [by rewrite lookup_insert_ne|done].
Qed.

Section WithToLowerCase.
Context (toLowerCase : string → string).

Lemma lowerCaseKeys_snoc obj key v :
  lowerCaseKeys toLowerCase (obj ++ [(key, v)])
  = setProperty (toLowerCase key) v (lowerCaseKeys toLowerCase obj).
Proof. unfold lowerCaseKeys. by rewrite foldl_snoc. Qed.

(** The request and the socket as [onConnect] leaves them when there are a
    request and parameters. *)
Lemma onConnect_request params connectionContext socketId req :
  request connectionContext = Some req →
  let made := (onConnect toLowerCase (Some params) connectionContext socketId).1.2 in
  let normalized := lowerCaseKeys toLowerCase params in
  request made
    = Some match backfill normalized (headers req) with
           | Ok hs => setHeaders hs (stash params normalized req)
           | Throw _ => stash params normalized req
           end
  ∧ __postgraphileReq (socket made) = request made
  ∧ postgraphileHeaders (socket made)
    = match backfill normalized (headers req) with
      | Ok hs => Some (spread normalized hs)
      | Throw _ => postgraphileHeaders (socket connectionContext)
      end
  ∧ (onConnect toLowerCase (Some params) connectionContext socketId).2
    = match backfill normalized (headers req) with
      | Ok _ => Ok ()
      | Throw e => Throw e
      end.
Proof.
  intros Hreq. unfold onConnect. rewrite Hreq. simpl.
  by destruct (backfill _ _).
Qed.

(** C3, amended.  When the request's authorization header is absent or
    empty and the normalized connection parameters hold a truthy
    authorization entry, the header becomes the string form of that entry,
    when it has one; a non-empty authorization header is kept whatever the
    parameters are; without a truthy entry the headers are unchanged; and
    no header other than authorization is ever written. *)
Theorem authorization_backfill connectionParams connectionContext socketId req :
  request connectionContext = Some req →
  ∃ hs,
    headersAfter toLowerCase connectionParams connectionContext socketId
      = Some hs
    ∧ (truthyStr (headers req !! "authorization") = false →
       truthy (authorizationParam toLowerCase connectionParams) = true →
       ∀ s, String_ (authorizationParam toLowerCase connectionParams) = Ok s →
       hs !! "authorization" = Some s)
    ∧ (truthyStr (headers req !! "authorization") = true → hs = headers req)
    ∧ (truthy (authorizationParam toLowerCase connectionParams) = false →
       hs = headers req)
    ∧ (∀ k, k ≠ "authorization" → hs !! k = headers req !! k).
Proof.
  intros Hreq. unfold headersAfter.
  destruct connectionParams as [params|]; simpl.
  - destruct (onConnect_request params connectionContext socketId req Hreq)
      as (-> & _).
    destruct (backfill_cases (lowerCaseKeys toLowerCase params) (headers req))
      as [(Hh & Hp & [(s & Hs & ->)|(e & He & ->)])|[Hno ->]]; simpl;
      (eexists; split; [done|]); split_and!; try congruence.
    + intros _ _ s' Hs'. rewrite Hs in Hs'. injection Hs' as <-.
      by rewrite lookup_insert_eq.
    + intros k Hk. by rewrite lookup_insert_ne.
    + intros Hh' Hp'. destruct Hno; congruence.
  - unfold onConnect. rewrite Hreq. simpl.
    eexists. split; [done|]. by split_and!.
Qed.

End WithToLowerCase.

(** C3, as stated, fails.  A request whose authorization header is present
    but empty does not keep it: the connection parameter replaces it.  And
    an authorization entry that is present but falsy (here the empty string)
    is not copied to a request without the header. *)
Lemma authorization_header_counterexample :
  (headers <$> request emptyAuthorization) ≫= (.!! "authorization") = Some ""
  ∧ headersAfter toLowerCaseAscii (Some [("authorization", VStr "X")])
      emptyAuthorization 0
      ≫= (.!! "authorization") = Some "X"
  ∧ getProperty (lowerCaseKeys toLowerCaseAscii [("Authorization", VStr "")])
      "authorization"
      = VStr ""
  ∧ headersAfter toLowerCaseAscii (Some [("Authorization", VStr "")])
      noAuthorization 0
      ≫= (.!! "authorization") = None.
Proof. vm_compute. done. Qed.

Lemma authorization_backfill_witness :
  headersAfter toLowerCaseAscii (Some [("Authorization", VStr "Bearer t")])
    noAuthorization 0
    ≫= (.!! "authorization") = Some "Bearer t"
  ∧ headersAfter toLowerCaseAscii (Some [("Authorization", VStr "Bearer t")])
      bearerAuthorization 0
    = headers <$> request bearerAuthorization
  ∧ headersAfter toLowerCaseAscii (Some [("Authorization", VNull)])
      noAuthorization 0
    = headers <$> request noAuthorization.
Proof.
  split_and!.
  - destruct (authorization_backfill toLowerCaseAscii
                (Some [("Authorization", VStr "Bearer t")])
                noAuthorization 0 request0 eq_refl)
      as (hs & -> & Hset & _).
    simpl. apply (Hset eq_refl eq_refl "Bearer t" eq_refl).
  - destruct (authorization_backfill toLowerCaseAscii
                (Some [("Authorization", VStr "Bearer t")])
                bearerAuthorization 0 _ eq_refl)
      as (hs & -> & _ & Hkept & _).
    simpl. f_equal. apply Hkept. reflexivity.
  - destruct (authorization_backfill toLowerCaseAscii
                (Some [("Authorization", VNull)])
                noAuthorization 0 request0 eq_refl)
      as (hs & -> & _ & _ & Hnone & _).
    simpl. f_equal. apply Hnone. reflexivity.
Defined.

End ConnectFacts.

(** ** Validation failures and the refused [execute] *)
Module OperationFacts.
Import JS Operation Examples.

Lemma append_cons c (s t : string) : String c s +:+ t = String c (s +:+ t).
Proof. reflexivity. Qed.

Lemma append_nil_r (s : string) : s +:+ "" = s.
Proof.
  induction s as [|c s IH]; [done|]. by rewrite append_cons, IH.
Qed.

Lemma append_assoc (s t u : string) : (s +:+ t) +:+ u = s +:+ t +:+ u.
Proof.
  induction s as [|c s IH]; [done|]. by rewrite !append_cons, IH.
Qed.

Lemma occursIn_append_r needle hay before :
  occursIn needle hay → occursIn needle (before +:+ hay).
Proof.
  intros (b & a & ->). exists (before +:+ b), a. by rewrite append_assoc.
Qed.

Lemma join_cons sep x xs :
  join sep (x :: xs) = x +:+ (if xs is [] then "" else sep +:+ join sep xs).
Proof. destruct xs; simpl; [by rewrite append_nil_r|done]. Qed.

Lemma occursIn_join sep x xs : x ∈ xs → occursIn x (join sep xs).
Proof.
  induction xs as [|y xs IH]; [by intros ?%elem_of_nil|].
  rewrite join_cons. intros [->|Hx]%elem_of_cons.
  - by exists "", (if xs is [] then "" else sep +:+ join sep xs).
  - apply occursIn_append_r.
    destruct xs as [|z xs]; [by apply elem_of_nil in Hx|].
    apply occursIn_append_r. by apply IH.
Qed.

Section WithCollaborators.
Context {GraphQLSchema DocumentNode ValidationRule Variables mixed Data : Type}.
Context (validate : GraphQLSchema → DocumentNode → list ValidationRule →
                    Result (list GraphQL.GraphQLError))
        (parse : string → Result DocumentNode)
        (handleErrors : list GraphQL.GraphQLError → IncomingMessage →
                        ServerResponse → list GraphQL.GraphQLError)
        (isEmpty : gmap string value → bool)
        (validationRulesHook :
           list ValidationRule → @ValidationHookContext Variables →
           Result (list ValidationRule))
        (options_pluginHook :
           option (@ExecutionParams GraphQLSchema DocumentNode Variables mixed Data →
                   Result
                     (@ExecutionParams GraphQLSchema DocumentNode Variables mixed Data
                      * @ExecutionParams GraphQLSchema DocumentNode Variables mixed Data))).

(** C5. When an operation reaches the dynamic rules, the hook yields at
    least one rule and [validate] reports at least one error, [onOperation]
    throws one error: its message is the prefix followed by all the
    messages joined by line feeds, every message occurs in it, and its
    [errors] property is the whole list of validation errors. *)
Theorem validation_errors_aggregated params awaitedContext awaitedSchema
    awaitedReqRes p validationErrors :
  prepare parse handleErrors isEmpty validationRulesHook options_pluginHook
    params awaitedContext awaitedSchema awaitedReqRes = Ok p →
  moreValidationRules p ≠ [] →
  validate (paramsSchema p) (finalQuery p) (moreValidationRules p)
    = Ok validationErrors →
  validationErrors ≠ [] →
  ∃ e, onOperation validate parse handleErrors isEmpty validationRulesHook
         options_pluginHook params awaitedContext awaitedSchema awaitedReqRes
       = Throw e
    ∧ message e = "Query validation failed: " +:+ LF +:+
                  join LF (GraphQL.message <$> validationErrors)
    ∧ (∀ v, v ∈ validationErrors → occursIn (GraphQL.message v) (message e))
    ∧ errors e = Some validationErrors.
Proof.
  intros Hp Hrules Hval Herrs. unfold onOperation. rewrite Hp.
  unfold mbind, Result_bind, validateDynamic.
  destruct (moreValidationRules p) as [|r rs]; [done|]. rewrite Hval.
  destruct validationErrors as [|v vs]; [done|]. simpl.
  eexists. split; [done|]. simpl. split_and!; try done.
  intros v' Hv'. unfold validationMessage.
  do 2 apply occursIn_append_r. apply occursIn_join.
  by apply (list_elem_of_fmap_2 GraphQL.message).
Qed.

End WithCollaborators.

Lemma validation_errors_aggregated_witness :
  ∃ e, onOperation rejectAll (λ _, Ok ()) (λ es _ _, es) (λ _, true)
         twoRules None startParams (Ok ∅) (Ok ()) (Ok (request0, 0))
       = Throw e
    ∧ message e = "Query validation failed: " +:+ LF +:+
        "depthLimit rejected the query" +:+ LF +:+
        "costLimit rejected the query".
Proof.
  edestruct (validation_errors_aggregated rejectAll (λ _, Ok ())
               (λ es _ _, es) (λ _, true) twoRules None startParams
               (Ok ∅) (Ok ()) (Ok (request0, 0)))
    as (e & He & Hm & _ & _);
    [reflexivity|discriminate|reflexivity|discriminate|].
  exists e. split; [exact He|exact Hm].
Defined.

(** C9. The [execute] installed in the subscription server throws the same
    error whatever it is called with; it never returns a value. *)
Theorem execute_always_throws {Args Value : Type} (args : Args) :
  execute (Value:=Value) args
  = Throw (newError "Only subscriptions are allowed over websocket transport")
  ∧ ∀ v : Value, execute args ≠ Ok v.
Proof. split; [reflexivity|discriminate]. Qed.

End OperationFacts.

(** ** Routing of upgrades and installation *)
Module UpgradeFacts.
Import JS Upgrade Examples.

(** C7. The upgrade listener compares the parsed path with the route the
    options configure, [/graphql] when they configure none (or the empty
    string): that route is the one of the listener an installation
    attaches; on equality the listener asks the socket server for the
    handshake, with a callback that emits one [connection] event carrying
    the new socket and the request; otherwise it does nothing. *)
Theorem upgrade_routed_by_path {Duplex Buffer GraphQLSchema : Type}
    (parseUrl : IncomingMessage → option Url) (options : Options)
    (req : IncomingMessage) (socket : Duplex) (head : Buffer) :
  let route := graphqlRouteOf options in
  (∀ configured, graphqlRoute options = Some configured → configured ≠ "" →
     route = configured)
  ∧ (graphqlRoute options = None ∨ graphqlRoute options = Some "" →
     route = "/graphql")
  ∧ (∀ (websocketServer : Server) (schema : GraphQLSchema),
       __postgraphileSubscriptionsEnabled websocketServer = false →
       upgradeListeners (enhance (Ok schema) options websocketServer)
       = upgradeListeners websocketServer ++ [route])
  ∧ (pathnameOf (parseUrl req) = PathnameString route →
     ∃ callback,
       onUpgrade parseUrl route req socket head
         = [HandleUpgrade req socket head callback]
       ∧ ∀ ws, callback ws = [Emit "connection" ws req])
  ∧ (pathnameOf (parseUrl req) ≠ PathnameString route →
     onUpgrade parseUrl route req socket head = []).
Proof.
  intros route. split_and!.
  - intros configured Hroute Hconfigured. unfold route, graphqlRouteOf.
    rewrite Hroute. by destruct (String.eqb_spec configured "").
  - unfold route, graphqlRouteOf. by intros [-> | ->].
  - intros websocketServer schema Hfresh.
    unfold enhance, enhanceHttpServerWithSubscriptions. by rewrite Hfresh.
  - intros Hpath. unfold onUpgrade. rewrite Hpath. simpl.
    rewrite String.eqb_refl. by eexists.
  - intros Hpath. unfold onUpgrade.
    destruct (pathnameOf (parseUrl req)) as [| |s]; try done. simpl.
    destruct (String.eqb_spec s route) as [->|]; done.
Qed.

Lemma upgrade_routed_by_path_witness :
  graphqlRouteOf (Cases.routeOptions "/subscriptions") = "/subscriptions"
  ∧ (∃ callback,
       onUpgrade parsePlainUrl
         (graphqlRouteOf (Cases.routeOptions "/subscriptions"))
         (upgradeTo "/subscriptions") () ()
       = [HandleUpgrade (upgradeTo "/subscriptions") () () callback]
       ∧ ∀ ws, callback ws = [Emit "connection" ws (upgradeTo "/subscriptions")])
  ∧ onUpgrade (Duplex:=unit) (Buffer:=unit) parsePlainUrl
      (graphqlRouteOf (Cases.routeOptions "/subscriptions"))
      (upgradeTo "/graphql") () () = []
  ∧ (∃ callback,
       onUpgrade parsePlainUrl (graphqlRouteOf defaults)
         (upgradeTo "/graphql") () ()
       = [HandleUpgrade (upgradeTo "/graphql") () () callback]
       ∧ ∀ ws, callback ws = [Emit "connection" ws (upgradeTo "/graphql")]).
Proof.
  split_and!.
  - destruct (upgrade_routed_by_path (GraphQLSchema:=unit) parsePlainUrl
                (Cases.routeOptions "/subscriptions")
                (upgradeTo "/subscriptions") () ()) as (Hconfigured & _).
    apply Hconfigured; [reflexivity|discriminate].
  - destruct (upgrade_routed_by_path (GraphQLSchema:=unit) parsePlainUrl
                (Cases.routeOptions "/subscriptions")
                (upgradeTo "/subscriptions") () ())
      as (_ & _ & _ & Haccept & _).
    apply Haccept. reflexivity.
  - destruct (upgrade_routed_by_path (GraphQLSchema:=unit) parsePlainUrl
                (Cases.routeOptions "/subscriptions")
                (upgradeTo "/graphql") () ()) as (_ & _ & _ & _ & Hignore).
    apply Hignore. discriminate.
  - destruct (upgrade_routed_by_path (GraphQLSchema:=unit) parsePlainUrl
                defaults (upgradeTo "/graphql") () ())
      as (_ & _ & _ & Haccept & _).
    apply Haccept. reflexivity.
Defined.

(** C8. The first call marks the server before it awaits anything; a call
    on a marked server returns at once and leaves the server as it is,
    whether the first call is still waiting for the schema or has finished;
    so a second whole call installs nothing again. *)
Theorem enhance_idempotent {GraphQLSchema : Type} (websocketServer : Server)
    (options options' : Options)
    (awaitedSchema awaitedSchema' : Result GraphQLSchema) :
  let first := enhanceHttpServerWithSubscriptions websocketServer options in
  let enhanced := (resume awaitedSchema first.2 first.1).1 in
  __postgraphileSubscriptionsEnabled first.1 = true
  ∧ enhanceHttpServerWithSubscriptions first.1 options' = (first.1, Returned)
  ∧ enhanceHttpServerWithSubscriptions enhanced options' = (enhanced, Returned)
  ∧ enhance awaitedSchema' options' (enhance awaitedSchema options websocketServer)
    = enhance awaitedSchema options websocketServer
  ∧ (__postgraphileSubscriptionsEnabled websocketServer = true →
     first = (websocketServer, Returned) ∧ enhanced = websocketServer).
Proof.
  intros first enhanced.
  assert (Hmarked : __postgraphileSubscriptionsEnabled first.1 = true).
  { unfold first, enhanceHttpServerWithSubscriptions.
    by destruct (__postgraphileSubscriptionsEnabled websocketServer) eqn:He. }
  assert (Hkept : __postgraphileSubscriptionsEnabled enhanced = true).
  { unfold enhanced, resume.
    destruct first.2; [destruct awaitedSchema|..]; done. }
  assert (Hnoop : ∀ srv, __postgraphileSubscriptionsEnabled srv = true →
            enhanceHttpServerWithSubscriptions srv options' = (srv, Returned)).
  { intros srv Hsrv. unfold enhanceHttpServerWithSubscriptions.
    by rewrite Hsrv. }
  assert (Hwhole : enhance awaitedSchema options websocketServer = enhanced).
  { unfold enhance, enhanced, first.
    by destruct (enhanceHttpServerWithSubscriptions websocketServer options). }
  split_and!; auto.
  - rewrite Hwhole. unfold enhance. by rewrite Hnoop.
  - intros He. unfold enhanced, first, enhanceHttpServerWithSubscriptions.
    by rewrite He.
Qed.

Lemma enhance_idempotent_witness :
  enhance (Ok ()) defaults plainServer
    = {| __postgraphileSubscriptionsEnabled := true;
         upgradeListeners := ["/graphql"]; subscriptionServers := 1 |}
  ∧ enhance (Ok ()) defaults (enhance (Ok ()) defaults plainServer)
    = enhance (Ok ()) defaults plainServer
  ∧ enhanceHttpServerWithSubscriptions markedServer defaults
    = (markedServer, Returned).
Proof.
  split_and!; [reflexivity| |].
  - apply (enhance_idempotent plainServer defaults defaults (Ok ()) (Ok ())).
  - destruct (enhance_idempotent markedServer defaults defaults (Ok ()) (Ok ()))
      as (_ & _ & _ & _ & Hmarked).
    by destruct (Hmarked eq_refl) as [-> _].
Defined.

End UpgradeFacts.

(** ** More on the registry: keys, releases and the operation lifecycle *)
Module LifecycleFacts.
Import JS Registry RegistryFacts Lifecycle.

Section WithContext.
Context {mixed : Type}.
Implicit Types (st : State mixed) (ws : WebSocket) (opId key : string).

(** X1. Two context keys are equal exactly when they are built from the same
    socket id and the same operation id: the separator cannot be confused
    with a character of the id. *)
Theorem contextKey_determines_pair ws ws' opId opId' :
  contextKey ws opId = contextKey ws' opId'
  ↔ postgraphileId ws = postgraphileId ws' ∧ opId = opId'.
Proof.
  split; [apply contextKey_inj|].
  intros [Hid ->]. unfold contextKey. by rewrite Hid.
Qed.

Lemma contextOf_alter_resolve st promise other :
  heap st !! other ≫= context
  = alter resolve promise (heap st) !! other ≫= context.
Proof.
  destruct (decide (promise = other)) as [->|Hne].
  - rewrite list_lookup_alter_eq. by destruct (heap st !! other).
  - by rewrite list_lookup_alter_ne.
Qed.

(** X2. Releasing a key that holds a handle calls [resolve] on that handle
    once, leaves the key in the dictionary with a null slot, keeps the
    context attached to every promise, and changes no other slot and no
    other promise. *)
Theorem release_effect ws opId st promise :
  registered st (contextKey ws opId) promise →
  let st' := releaseContextForSocketAndOpId ws opId st in
  keepalivePromisesByContextKey st' !! contextKey ws opId = Some None
  ∧ resolved st' promise = S <$> resolved st promise
  ∧ (∀ other, other ≠ promise → resolved st' other = resolved st other)
  ∧ (∀ other, contextOf st' other = contextOf st other)
  ∧ (∀ key, key ≠ contextKey ws opId →
       keepalivePromisesByContextKey st' !! key
       = keepalivePromisesByContextKey st !! key)
  ∧ effects st' = effects st ++
      [Resolve promise; Store (contextKey ws opId) None].
Proof.
  intros Hreg st'. unfold st'.
  rewrite (release_occupied _ _ _ promise) by done.
  split_and!; simpl.
  - by rewrite lookup_insert_eq.
  - unfold resolved at 1; simpl. rewrite resolved_alter_resolve.
    by case_decide.
  - intros other Hne. unfold resolved at 1; simpl.
    rewrite resolved_alter_resolve. by case_decide.
  - intros other. unfold contextOf; simpl.
    by rewrite <- contextOf_alter_resolve.
  - intros key Hne. by rewrite lookup_insert_ne.
  - done.
Qed.

Lemma call_keeps_key (st : State mixed) op key :
  is_Some (keepalivePromisesByContextKey st !! key) →
  is_Some (keepalivePromisesByContextKey (call st op) !! key).
Proof.
  intros Hkey.
  assert (Hrel : ∀ ws opId,
    is_Some (keepalivePromisesByContextKey
               (releaseContextForSocketAndOpId ws opId st) !! key)).
  { intros ws opId. unfold releaseContextForSocketAndOpId.
    destruct (keepalivePromisesByContextKey st !! contextKey ws opId)
      as [[p|]|]; simpl; try done.
    rewrite lookup_insert. case_decide; [by eexists|done]. }
  destruct op as [c ws opId|ws opId]; unfold call; [|apply Hrel].
  rewrite add_unfold. simpl. rewrite lookup_insert.
  case_decide; [by eexists|apply Hrel].
Qed.

(** X3. The dictionary only grows: a key that has once been stored stays in
    it through every later acquire and release (a released slot is set to
    null, never deleted). *)
Theorem registry_keys_never_removed (ops more : list (Call mixed)) key :
  is_Some (keepalivePromisesByContextKey (run ops) !! key) →
  is_Some (keepalivePromisesByContextKey (run (ops ++ more)) !! key).
Proof.
  unfold run. rewrite foldl_app. generalize (foldl call init ops).
  induction more as [|op more IH]; intros st Hkey; simpl; [done|].
  by apply IH, call_keeps_key.
Qed.

(** X4. Every acquire creates exactly one promise and a release creates
    none: the number of promises ever created is the number of acquires. *)
Theorem promises_created_by_acquires (ops : list (Call mixed)) :
  length (heap (run ops)) = length (filter (λ op, isAcquire op = true) ops).
Proof.
  unfold run. induction ops as [|op ops IH] using rev_ind; [done|].
  rewrite foldl_snoc, filter_app, length_app, <- IH.
  destruct op as [c ws opId|ws opId]; unfold call.
  - rewrite add_unfold. simpl. by rewrite length_app, release_length.
  - rewrite release_length. simpl. lia.
Qed.

Lemma release_keeps_other ws opId st key other :
  Inv st → key ≠ contextKey ws opId → registered st key other →
  registered (releaseContextForSocketAndOpId ws opId st) key other
  ∧ live (releaseContextForSocketAndOpId ws opId st) other.
Proof.
  intros Hinv Hkey Hreg. split.
  - unfold registered. by rewrite release_other_key.
  - unfold live. rewrite resolved_release. case_decide as Hclash.
    + destruct Hkey. by apply (inv_one_key _ Hinv _ _ other).
    + by eapply inv_registered_live.
Qed.

Lemma add_keeps_other c ws opId st key other :
  Inv st → key ≠ contextKey ws opId → registered st key other →
  registered (addContextForSocketAndOpId c ws opId st).1 key other
  ∧ live (addContextForSocketAndOpId c ws opId st).1 other.
Proof.
  intros Hinv Hkey Hreg. rewrite add_unfold. simpl.
  destruct (release_keeps_other ws opId st key other) as [Hreg' Hlive'];
    try done.
  split.
  - unfold registered, stored. simpl. by rewrite lookup_insert_ne.
  - unfold live. rewrite resolved_stored.
    pose proof (live_in_range _ _ Hlive'). case_decide; [lia|done].
Qed.

Lemma add_registers c ws opId st :
  let st' := (addContextForSocketAndOpId c ws opId st).1 in
  (addContextForSocketAndOpId c ws opId st).2 = length (heap st)
  ∧ registered st' (contextKey ws opId) (length (heap st))
  ∧ live st' (length (heap st))
  ∧ contextOf st' (length (heap st)) = Some c.
Proof.
  rewrite add_unfold. simpl. rewrite release_length. split_and!; [done|..].
  - unfold registered, stored. simpl.
    by rewrite release_length, lookup_insert_eq.
  - unfold live. rewrite resolved_stored, release_length. by case_decide.
  - unfold contextOf, stored. simpl.
    by rewrite list_lookup_middle by (by rewrite release_length).
Qed.

(** X5. [getContext] resolves only with the context the provider yields,
    and then the handle acquired for the key is stored, live and carries
    that context; it rejects only with the error of [reqResFromSocket] or
    of the provider, and then the registry is as it was. *)
Theorem getContext_outcome
    (provider : IncomingMessage → ServerResponse → bool → Provided)
    awaitedReqRes ws opId st :
  let r := getContext provider awaitedReqRes ws opId st in
  match r.2 with
  | Ok v =>
      ∃ req res c,
        awaitedReqRes = Ok (req, res) ∧ provider req res true = Yields c
        ∧ v = Some c
        ∧ registered r.1 (contextKey ws opId) (length (heap st))
        ∧ live r.1 (length (heap st))
        ∧ contextOf r.1 (length (heap st)) = Some c
  | Throw e =>
      r.1 = st
      ∧ (awaitedReqRes = Throw e
         ∨ ∃ req res,
             awaitedReqRes = Ok (req, res) ∧ provider req res true = Fails e)
  end.
Proof.
  intros r. subst r.
  unfold getContext. destruct awaitedReqRes as [[req res]|e].
  - destruct (provider req res true) as [c|e] eqn:Hp.
    + destruct (add_registers c ws opId st) as (Hnew & Hreg & Hlive & Hctx).
      destruct (addContextForSocketAndOpId c ws opId st) as [st' promise].
      simpl in *. subst promise. exists req, res, c. by rewrite Hctx.
    + split; [done|]. right. by exists req, res.
  - split; [done|]. by left.
Qed.

(** X6. An operation that starts (its [getContext] acquires a handle) and
    then completes leaves that handle resolved exactly once with its
    context still attached, and its slot null; the registry keeps its
    invariant; the handles of the other operations, on this socket or on
    another, stay stored and live throughout; and completing it a second
    time changes nothing. *)
Theorem operation_lifecycle (ops : list (Call mixed))
    (provider : IncomingMessage → ServerResponse → bool → Provided)
    req res ws opId c :
  provider req res true = Yields c →
  let st := run ops in
  let started := (getContext provider (Ok (req, res)) ws opId st).1 in
  let completed := onOperationComplete ws opId started in
  resolved completed (length (heap st)) = Some 1
  ∧ contextOf completed (length (heap st)) = Some c
  ∧ keepalivePromisesByContextKey completed !! contextKey ws opId = Some None
  ∧ Inv completed
  ∧ (∀ ws' opId' other,
       postgraphileId ws' ≠ postgraphileId ws ∨ opId' ≠ opId →
       registered st (contextKey ws' opId') other →
       (registered started (contextKey ws' opId') other ∧ live started other)
       ∧ registered completed (contextKey ws' opId') other
       ∧ live completed other)
  ∧ onOperationComplete ws opId completed = completed.
Proof.
  intros Hp st started completed.
  assert (Hstarted : started = (addContextForSocketAndOpId c ws opId st).1).
  { unfold started, getContext. rewrite Hp.
    by destruct (addContextForSocketAndOpId c ws opId st). }
  destruct (add_registers c ws opId st) as (_ & Hreg & Hlive & Hctx).
  rewrite <- Hstarted in Hreg, Hlive, Hctx.
  assert (Hinv : Inv started) by (rewrite Hstarted; apply add_Inv, run_Inv).
  assert (Hcompleted : completed = releaseContextForSocketAndOpId ws opId started)
    by done.
  split_and!.
  - rewrite Hcompleted, resolved_release. case_decide; [|done].
    by rewrite Hlive.
  - rewrite Hcompleted, (release_occupied _ _ _ (length (heap st))) by done.
    unfold contextOf. simpl. rewrite <- contextOf_alter_resolve. apply Hctx.
  - rewrite Hcompleted, (release_occupied _ _ _ (length (heap st))) by done.
    simpl. by rewrite lookup_insert_eq.
  - rewrite Hcompleted. by apply release_Inv.
  - intros ws' opId' other Hpair Hother.
    assert (Hkey : contextKey ws' opId' ≠ contextKey ws opId).
    { intros [??]%contextKey_inj. destruct Hpair; congruence. }
    assert (Hs : registered started (contextKey ws' opId') other
                 ∧ live started other).
    { rewrite Hstarted. apply add_keeps_other; [apply run_Inv|done..]. }
    split; [done|]. rewrite Hcompleted.
    apply release_keeps_other; [done..|apply Hs].
  - unfold onOperationComplete. rewrite Hcompleted.
    apply release_vacant, release_clears.
Qed.

End WithContext.

Lemma release_effect_witness :
  registered (run [Acquire "ctxA" Examples.socket1 "1"])
    (contextKey Examples.socket1 "1") 0
  ∧ resolved
      (releaseContextForSocketAndOpId Examples.socket1 "1"
         (run [Acquire "ctxA" Examples.socket1 "1"])) 0 = Some 1.
Proof.
  split; [reflexivity|].
  destruct (release_effect Examples.socket1 "1"
              (run [Acquire "ctxA" Examples.socket1 "1"]) 0 eq_refl)
    as (_ & -> & _).
  reflexivity.
Defined.

Lemma registry_keys_never_removed_witness :
  keepalivePromisesByContextKey
    (run [Acquire "ctxA" Examples.socket1 "1"; Release Examples.socket1 "1";
          Acquire "ctxB" Examples.socket1 "2"]) !! "1|1" = Some None.
Proof.
  destruct (registry_keys_never_removed
              [Acquire "ctxA" Examples.socket1 "1"]
              [Release Examples.socket1 "1";
               Acquire "ctxB" Examples.socket1 "2"] "1|1") as [slot Hslot].
  - exists (Some 0). reflexivity.
  - reflexivity.
Defined.

Lemma operation_lifecycle_witness :
  resolved
    (onOperationComplete Examples.socket1 "1"
       (getContext (λ _ _ _, Yields "ctx") (Ok (Examples.request0, 0))
          Examples.socket1 "1" (run [])).1) 0 = Some 1.
Proof.
  destruct (operation_lifecycle [] (λ _ _ _, Yields "ctx")
              Examples.request0 0 Examples.socket1 "1" "ctx" eq_refl)
    as (Hresolved & _).
  exact Hresolved.
Defined.

End LifecycleFacts.

(** ** More on the bridge: failures, accounting and interleavings *)
Module ScheduleFacts.
Import JS Bridge BridgeFacts Schedule.

Lemma settle_prefix req dummyRes m post : ∀ l w,
  ∃ w', settle (S (length l)) (AwaitingMiddleware req dummyRes (l ++ m :: post)) w
        = (w', AwaitingMiddleware req dummyRes post)
    ∧ __postgraphileReq (socket w') = __postgraphileReq (socket w)
    ∧ __postgraphileRes (socket w') = __postgraphileRes (socket w)
    ∧ responses w' = responses w
    ∧ invoked w' = invoked w ++ l ++ [m].
Proof.
  induction l as [|a l IH]; intros w.
  - destruct (invoke_spec m w) as (I1 & I2 & I3 & I4).
    exists (invoke m w). by split_and!.
  - destruct (IH (invoke a w)) as (w' & Hrun & H1 & H2 & H3 & H4).
    destruct (invoke_spec a w) as (I1 & I2 & I3 & I4).
    exists w'. split; [exact Hrun|].
    rewrite H1, H2, H3, H4, I1, I2, I3, I4. split_and!; try done.
    by rewrite <- app_assoc.
Qed.

(** X7. When the middleware in flight reports an error, the pass is
    rejected with that error: the middlewares after it are never called and
    no pseudo-response is cached, so the next request for the pair creates
    a new pseudo-response and starts the chain again from its first
    middleware. *)
Theorem middleware_error_aborts options req w pre m post e :
  __postgraphileReq (socket w) = Some req → res req = false →
  __postgraphileRes (socket w) = None →
  chain options = pre ++ m :: post →
  let started := reqResFromSocket options w in
  let reached := settle (length pre) started.2 started.1 in
  let failed := next (Some e) reached.2 reached.1 in
  let retried := reqResFromSocket options failed.1 in
  failed.2 = Rejected e
  ∧ invoked failed.1 = invoked w ++ pre ++ [m]
  ∧ __postgraphileRes (socket failed.1) = None
  ∧ invoked retried.1 = invoked failed.1 ++ take 1 (chain options)
  ∧ retried.2
    = AwaitingMiddleware req (S (responses w)) (drop 1 (chain options)).
Proof.
  intros Hreq Hres Hcache Hchain started reached failed retried.
  assert (Hreached : ∃ w', reached = (w', AwaitingMiddleware req (responses w) post)
            ∧ __postgraphileReq (socket w') = Some req
            ∧ __postgraphileRes (socket w') = None
            ∧ responses w' = S (responses w)
            ∧ invoked w' = invoked w ++ pre ++ [m]).
  { unfold reached, started, reqResFromSocket.
    rewrite Hreq, Hres, Hcache, Hchain. cbn -[settle invoke].
    destruct (invoke_spec)
      with (w := {| socket := socket w; console := console w;
                    responses := S (responses w); invoked := invoked w |})
           (m := hd m pre) as (I1 & I2 & I3 & I4).
    destruct pre as [|p pre]; cbn -[settle invoke] in *.
    - eexists. split; [done|]. by rewrite I1, I2, I3, I4.
    - destruct (settle_prefix req (responses w) m post pre
        (invoke p {| socket := socket w; console := console w;
                     responses := S (responses w); invoked := invoked w |}))
        as (w' & -> & H1 & H2 & H3 & H4).
      exists w'. split; [done|].
      rewrite H1, H2, H3, H4, I1, I2, I3, I4. simpl.
      split_and!; try done. by rewrite <- app_assoc. }
  destruct Hreached as (w' & Hw' & H1 & H2 & H3 & H4).
  assert (Hfailed : failed = (w', Rejected e)).
  { unfold failed. by rewrite Hw'. }
  split_and!.
  - by rewrite Hfailed.
  - by rewrite Hfailed.
  - by rewrite Hfailed.
  - unfold retried, reqResFromSocket. rewrite Hfailed. simpl.
    rewrite H1, Hres, H2.
    destruct (chain options) as [|first others] eqn:Hc;
      [by destruct pre|].
    cbn -[invoke].
    match goal with |- context [invoke ?a ?b] =>
      destruct (invoke_spec a b) as (_ & _ & _ & ->) end.
    done.
  - unfold retried, reqResFromSocket. rewrite Hfailed. simpl.
    rewrite H1, Hres, H2.
    destruct (chain options) as [|first others] eqn:Hc;
      [by destruct pre|].
    cbn -[invoke]. by rewrite H3.
Qed.

Lemma middleware_error_aborts_witness :
  let options :=
    {| graphqlRoute := None;
       websocketMiddlewares :=
         Some [Examples.session; {| handler := "auth"; writes := [] |};
               {| handler := "cors"; writes := [] |}];
       middlewares := None |} in
  let started := reqResFromSocket options (world (connected Examples.request0)) in
  let reached := settle 1 started.2 started.1 in
  let failed := next (Some "denied") reached.2 reached.1 in
  failed.2 = Rejected "denied"
  ∧ invoked failed.1
    = [Examples.session; {| handler := "auth"; writes := [] |}].
Proof.
  intros options started reached failed.
  destruct (middleware_error_aborts options Examples.request0
              (world (connected Examples.request0)) [Examples.session]
              {| handler := "auth"; writes := [] |}
              [{| handler := "cors"; writes := [] |}] "denied"
              eq_refl eq_refl eq_refl eq_refl) as (Hfailed & Hinvoked & _).
  split; [exact Hfailed|exact Hinvoked].
Defined.











Lemma sum_owed_insert (ts : list Task) i t t' :
  ts !! i = Some t →
  sum_list (owed <$> <[i := t']> ts) + owed t
  = sum_list (owed <$> ts) + owed t'.
Proof.
  revert i. induction ts as [|a ts IH]; intros [|i] Hi; simpl in *;
    try done.
  - injection Hi as ->. lia.
  - specialize (IH i Hi). unfold fmap in *. lia.
Qed.

Lemma sum_owed_snoc (ts : list Task) t :
  sum_list (owed <$> ts ++ [t]) = sum_list (owed <$> ts) + owed t.
Proof.
  induction ts as [|a ts IH]; simpl; [lia|]. unfold fmap in *. lia.
Qed.

Lemma next_budget err t w :
  responses (next err t w).1 = responses w
  ∧ length (invoked (next err t w).1) + owed (next err t w).2
    ≤ length (invoked w) + owed t.
Proof.
  destruct t as [req d rest|req d|req d|msg]; simpl; try (split; [done|lia]).
  destruct err; simpl; [split; [done|lia]|].
  destruct rest as [|m rest]; cbn -[invoke]; [split; [done|lia]|].
  destruct (invoke_spec m w) as (_ & _ & -> & ->).
  rewrite length_app. simpl. split; [done|lia].
Qed.

Lemma step_budget options sys e :
  withinBudget options sys → withinBudget options (step options sys e).
Proof.
  unfold withinBudget. intros Hb. destruct e as [|i err]; simpl.
  - unfold reqResFromSocket.
    destruct (__postgraphileReq (socket (world sys))) as [req|];
      [|simpl; rewrite sum_owed_snoc; simpl; lia].
    destruct (res req); [simpl; rewrite sum_owed_snoc; simpl; lia|].
    destruct (__postgraphileRes (socket (world sys)));
      [simpl; rewrite sum_owed_snoc; simpl; lia|].
    cbn -[invoke]. destruct (chain options) as [|m rest]; cbn -[invoke].
    + rewrite sum_owed_snoc. simpl in *. lia.
    + match goal with |- context [invoke ?a ?b] =>
        destruct (invoke_spec a b) as (_ & _ & -> & ->) end.
      rewrite sum_owed_snoc, length_app. simpl in *. nia.
  - destruct (tasks sys !! i) as [t|] eqn:Hi; [|done].
    destruct (next_budget err t (world sys)) as [Hr Hle].
    pose proof (sum_owed_insert (tasks sys) i t
                  (next err t (world sys)).2 Hi) as Hsum.
    destruct (next err t (world sys)) as [w' t']. simpl in *.
    rewrite Hr. lia.
Qed.

(** X9. In every interleaving of operations and middleware completions on
    a connected socket, the middlewares called never outnumber one chain
    per pseudo-response created: a pass calls each middleware of the chain
    at most once. *)
Theorem middleware_calls_bounded options req events :
  let w := world (exec options events (connected req)) in
  length (invoked w) ≤ responses w * length (chain options).
Proof.
  intros w.
  assert (Hb : withinBudget options (exec options events (connected req))).
  { unfold exec. induction events as [|e events IH] using rev_ind.
    - unfold withinBudget. simpl. lia.
    - rewrite foldl_snoc. by apply step_budget. }
  unfold withinBudget in Hb. unfold w. lia.
Qed.

Lemma writeHead_session a w :
  __postgraphileReq (socket (writeHead a w)) = __postgraphileReq (socket w)
  ∧ __postgraphileRes (socket (writeHead a w)) = __postgraphileRes (socket w).
Proof.
  destruct (writeHead_same_session a w) as (H1 & H2 & _). by split.
Qed.

Lemma step_session options req sys e :
  __postgraphileReq (socket (world sys)) = Some req →
  holdsOnly req (tasks sys) →
  __postgraphileReq (socket (world (step options sys e))) = Some req
  ∧ holdsOnly req (tasks (step options sys e))
  ∧ (is_Some (__postgraphileRes (socket (world sys))) →
     is_Some (__postgraphileRes (socket (world (step options sys e))))).
Proof.
  intros Hreq Hts. destruct e as [|i err]; simpl.
  - unfold reqResFromSocket. rewrite Hreq.
    assert (Hsnoc : ∀ t, (∀ r, taskReq t = Some r → r = req) →
              holdsOnly req (tasks sys ++ [t])).
    { intros t Ht t' r [Hin|Hin%list_elem_of_singleton]%elem_of_app;
        [by eapply Hts|subst; apply Ht]. }
    destruct (res req); [split_and!; [done|by apply Hsnoc|done]|].
    destruct (__postgraphileRes (socket (world sys))) as [d|] eqn:Hd.
    { simpl. split_and!; [done| |by rewrite Hd].
      apply Hsnoc. simpl. congruence. }
    cbn -[invoke]. destruct (chain options) as [|m rest]; cbn -[invoke].
    + split_and!; [done| |by intros [??]]. apply Hsnoc. simpl. congruence.
    + match goal with |- context [invoke ?a ?b] =>
        destruct (invoke_spec a b) as (-> & -> & _) end.
      simpl. split_and!; [done| |by intros [??]].
      apply Hsnoc. simpl. congruence.
  - destruct (tasks sys !! i) as [t|] eqn:Hi; [|by split_and!].
    assert (Ht : ∀ r, taskReq t = Some r → r = req).
    { intros r. apply Hts. by eapply list_elem_of_lookup_2. }
    assert (Hins : ∀ t', (∀ r, taskReq t' = Some r → r = req) →
              holdsOnly req (<[i := t']> (tasks sys))).
    { intros t' Ht' t'' r Hin Hr.
      apply list_elem_of_lookup in Hin as [j Hj].
      destruct (decide (i = j)) as [->|Hne].
      - rewrite list_lookup_insert_eq in Hj
          by (by eapply lookup_lt_Some). injection Hj as <-. by apply Ht'.
      - rewrite list_lookup_insert_ne in Hj by done.
        eapply Hts; [by eapply list_elem_of_lookup_2|done]. }
    destruct t as [r d rest|r d|r d|msg]; simpl.
    + destruct err; simpl; [split_and!; [done|by apply Hins|done]|].
      destruct rest as [|m rest]; cbn -[invoke].
      * split_and!; [done|by apply Hins|by eexists].
      * destruct (invoke_spec m (world sys)) as (-> & -> & _).
        split_and!; [done|by apply Hins|done].
    + split_and!; [done|by apply Hins|by eexists].
    + split_and!; [done|by apply Hins|done].
    + split_and!; [done|by apply Hins|done].
Qed.

(** X10. In every interleaving on a connected socket, the stashed request
    is never replaced, every task holds that request, and a
    pseudo-response, once cached, is never removed by later events. *)
Theorem session_is_stable options req events more :
  let sys := exec options events (connected req) in
  let sys' := exec options (events ++ more) (connected req) in
  __postgraphileReq (socket (world sys)) = Some req
  ∧ (∀ t r, t ∈ tasks sys → taskReq t = Some r → r = req)
  ∧ (is_Some (__postgraphileRes (socket (world sys))) →
     is_Some (__postgraphileRes (socket (world sys')))).
Proof.
  intros sys sys'.
  assert (Hinv : ∀ evs,
    __postgraphileReq (socket (world (exec options evs (connected req))))
      = Some req
    ∧ holdsOnly req (tasks (exec options evs (connected req)))).
  { unfold exec. induction evs as [|e evs [IH1 IH2]] using rev_ind.
    - split; [done|]. intros t r Hin. by apply elem_of_nil in Hin.
    - rewrite foldl_snoc.
      destruct (step_session options req _ e IH1 IH2) as (? & ? & _).
      by split. }
  destruct (Hinv events) as [H1 H2]. split_and!; [done|exact H2|].
  unfold sys', exec. rewrite foldl_app. fold (exec options events (connected req)).
  fold sys. clear Hinv.
  assert (Hgen : ∀ s, __postgraphileReq (socket (world s)) = Some req →
            holdsOnly req (tasks s) →
            is_Some (__postgraphileRes (socket (world s))) →
            is_Some (__postgraphileRes
                       (socket (world (foldl (step options) s more))))).
  { induction more as [|e more IH]; intros s Hs1 Hs2 Hs3; simpl; [done|].
    destruct (step_session options req s e Hs1 Hs2) as (? & ? & Hkeep).
    apply IH; auto. }
  by apply Hgen.
Qed.

Lemma answered_returned errs req d w :
  answered errs (Returned req d) w = (w, Returned req d).
Proof. induction errs as [|err errs IH]; simpl; [done|apply IH]. Qed.

Lemma answered_rejected errs msg w :
  answered errs (Rejected msg) w = (w, Rejected msg).
Proof. induction errs as [|err errs IH]; simpl; [done|apply IH]. Qed.

Lemma answered_middlewares req d : ∀ errs rest w,
  let ended := answered errs (AwaitingMiddleware req d rest) w in
  match firstError (S (length rest)) errs with
  | Some e => ended.2 = Rejected e ∧ __postgraphileRes (socket ended.1)
                                      = __postgraphileRes (socket w)
  | None => isRejected ended.2 = false
  end.
Proof.
  induction errs as [|err errs IH]; intros rest w; [done|].
  cbn [answered next firstError length].
  destruct err as [e|].
  - cbn. by rewrite answered_rejected.
  - destruct rest as [|m rest].
    + rewrite answered_returned. by destruct errs as [|[?|] ?].
    + specialize (IH rest (invoke m w)). cbn zeta in IH.
      destruct (invoke_spec m w) as (_ & Hres & _).
      change (length (m :: rest)) with (S (length rest)).
      destruct (firstError (S (length rest)) errs); [|done].
      by rewrite <- Hres.
Qed.

(** X11. A whole call of [reqResFromSocket] ends rejected exactly when the
    socket holds no request, or the request already has a [res], or no
    pseudo-response is cached and one of the middlewares of the chain
    answers with an error, the ones before it having succeeded.  In the
    first two cases everything is left as it was; in the third the error is
    the middleware's and no pseudo-response is cached. *)
Theorem reqRes_rejects_iff options errs w :
  let ended := called options errs w in
  (isRejected ended.2 = true
   ↔ __postgraphileReq (socket w) = None
     ∨ ∃ req, __postgraphileReq (socket w) = Some req
         ∧ (res req = true
            ∨ __postgraphileRes (socket w) = None
              ∧ is_Some (firstError (length (chain options)) errs)))
  ∧ (__postgraphileReq (socket w) = None
     ∨ (∃ req, __postgraphileReq (socket w) = Some req ∧ res req = true) →
     ended.1 = w)
  ∧ (∀ req e, __postgraphileReq (socket w) = Some req → res req = false →
       __postgraphileRes (socket w) = None →
       firstError (length (chain options)) errs = Some e →
       ended.2 = Rejected e ∧ __postgraphileRes (socket ended.1) = None).
Proof.
  unfold called, reqResFromSocket.
  destruct (__postgraphileReq (socket w)) as [req|].
  2:{ cbn zeta. rewrite answered_rejected. split_and!; [|done|done].
      split; [by left|done]. }
  destruct (res req) eqn:Hres.
  { cbn zeta. rewrite answered_rejected. split_and!; [|done|].
    - split; [|done]. intros _. right. exists req. auto.
    - intros r e [= <-]. congruence. }
  destruct (__postgraphileRes (socket w)) as [d|] eqn:Hd.
  { cbn zeta. rewrite answered_returned. split_and!.
    - split; [done|]. intros [?|(r & [= <-] & [?|[? _]])]; congruence.
    - intros [?|(r & [= <-] & ?)]; congruence.
    - done. }
  cbn -[invoke answered firstError].
  destruct (chain options) as [|m rest]; cbn -[invoke answered firstError].
  { assert (Hend : ∀ w0, isRejected (answered errs
              (AwaitingApply req (responses w)) w0).2 = false).
    { intros w0. destruct errs as [|err errs]; [done|].
      simpl. by rewrite answered_returned. }
    rewrite Hend. split_and!.
    - split; [done|].
      intros [?|(r & [= <-] & [?|[_ [e He]]])]; try congruence.
      by destruct errs as [|[?|] ?].
    - intros [?|(r & [= <-] & ?)]; congruence.
    - intros r e _ _ _ He. by destruct errs as [|[?|] ?]. }
  change (length (m :: rest)) with (S (length rest)).
  match goal with |- context [answered errs ?t (invoke ?a ?b)] =>
    pose proof (answered_middlewares req (responses w) errs rest (invoke a b))
      as Hrun;
    destruct (invoke_spec a b) as (_ & Hres' & _);
    destruct (answered errs t (invoke a b)) as [w' t'] end.
  cbn [fst snd] in *. cbn zeta in Hrun. rewrite Hres' in Hrun.
  cbn [socket __postgraphileRes] in Hrun. rewrite Hd in Hrun.
  destruct (firstError (S (length rest)) errs) as [e|] eqn:Hfirst.
  - destruct Hrun as [-> Hcache]. split_and!.
    + split; [|done]. intros _. right. exists req. split; [done|].
      right. split; [done|by eexists].
    + intros [?|(r & [= <-] & ?)]; congruence.
    + intros r e' [= <-] _ _ [= <-]. split; [done|]. congruence.
  - rewrite Hrun. split_and!.
    + split; [done|].
      intros [?|(r & [= <-] & [?|[_ [e He]]])]; congruence.
    + intros [?|(r & [= <-] & ?)]; congruence.
    + done.
Qed.

Lemma reqRes_rejects_iff_witness :
  let options :=
    {| graphqlRoute := None;
       websocketMiddlewares :=
         Some [Examples.session; {| handler := "auth"; writes := [] |}];
       middlewares := None |} in
  let ended :=
    called options [None; Some "denied"] (world (connected Examples.request0)) in
  ended.2 = Rejected "denied"
  ∧ __postgraphileRes (socket ended.1) = None.
Proof.
  intros options ended.
  destruct (reqRes_rejects_iff options [None; Some "denied"]
              (world (connected Examples.request0))) as (_ & _ & Hfails).
  apply (Hfails Examples.request0 "denied"); reflexivity.
Defined.

(** X23. Whatever else it is passed, the [writeHead] override called with
    a status code above 200 logs the status line carrying that code and
    closes the socket once; called with any other status code (or none)
    and with headers as its third argument, it logs the headers line and
    closes the socket once. *)
Theorem writeHead_rejects (a : WriteHead) (w : World) :
  (∀ n, statusCode a = Some n → (200 < n)%Z →
     writeHead a w = close (console_error (statusError n) w)
     ∧ console (writeHead a w) = console w ++ [statusError n]
     ∧ closeCalls (socket (writeHead a w)) = S (closeCalls (socket w)))
  ∧ ((statusCode a = None ∨ ∃ n, statusCode a = Some n ∧ (n ≤ 200)%Z) →
     is_Some (headersArg a) →
     writeHead a w = close (console_error headersError w)
     ∧ console (writeHead a w) = console w ++ [headersError]
     ∧ closeCalls (socket (writeHead a w)) = S (closeCalls (socket w))).
Proof.
  split.
  - intros n Hn Hgt. unfold writeHead. rewrite Hn.
    assert ((n =? 0)%Z = false) as -> by lia.
    assert ((200 <? n)%Z = true) as -> by lia. done.
  - intros Hstatus [h Hh]. unfold writeHead. rewrite Hh.
    destruct Hstatus as [->|(n & -> & Hle)]; [done|].
    assert ((200 <? n)%Z = false) as -> by lia.
    by rewrite andb_false_r.
Qed.

Lemma writeHead_rejects_witness :
  let w := world (connected Examples.request0) in
  (200 < 500)%Z
  ∧ console (writeHead
      {| statusCode := Some 500%Z; _statusMessage := None;
         headersArg := Some {["content-type" := "text/html"]} |} w)
    = [statusError 500]
  ∧ console (writeHead
      {| statusCode := Some 200%Z; _statusMessage := None;
         headersArg := Some {["content-type" := "text/html"]} |} w)
    = [headersError].
Proof.
  intros w. split_and!; [lia| |].
  - destruct (writeHead_rejects
                {| statusCode := Some 500%Z; _statusMessage := None;
                   headersArg := Some {["content-type" := "text/html"]} |} w)
      as [Hstatus _].
    destruct (Hstatus 500%Z) as (_ & -> & _); [reflexivity|lia|reflexivity].
  - destruct (writeHead_rejects
                {| statusCode := Some 200%Z; _statusMessage := None;
                   headersArg := Some {["content-type" := "text/html"]} |} w)
      as [_ Hheaders].
    destruct Hheaders as (_ & -> & _); [|by eexists|reflexivity].
    right. exists 200%Z. split; [reflexivity|lia].
Defined.

End ScheduleFacts.

(** ** More on connections: ids, stashed data and merged headers *)
Module ConnectionsFacts.
Import JS Connect ConnectFacts Connections Registry RegistryFacts.

Lemma setProperty_own key v o k w :
  own (setProperty key v o) !! k = Some w →
  own o !! k = Some w ∨ (k = key ∧ w = v).
Proof.
  unfold setProperty. destruct (_ && _).
  - destruct v; simpl; auto.
  - simpl. rewrite lookup_insert. case_decide; [|auto].
    intros [= <-]. by right.
Qed.

Lemma setProperty_own_other key v o k :
  k ≠ key → own (setProperty key v o) !! k = own o !! k.
Proof.
  intros Hk. unfold setProperty. destruct (_ && _).
  - by destruct v.
  - simpl. by rewrite lookup_insert_ne.
Qed.

Section WithToLowerCase.
Context (toLowerCase : string → string).

Lemma onConnect_id connectionParams connectionContext socketId :
  (onConnect toLowerCase connectionParams connectionContext socketId).1.1
    = (socketId + 1)%N
  ∧ postgraphileId
      (socket
         (onConnect toLowerCase connectionParams connectionContext socketId).1.2)
    = Some (socketId + 1)%N.
Proof.
  unfold onConnect.
  destruct (request connectionContext), connectionParams; try by split.
  by destruct (backfill _ _).
Qed.

Lemma connectAll_ids connections : ∀ socketId,
  (connectAll toLowerCase connections socketId).2
    = (socketId + N.of_nat (length connections))%N
  ∧ ∀ i connectionContext result,
      (connectAll toLowerCase connections socketId).1 !! i
        = Some (connectionContext, result) →
      postgraphileId (socket connectionContext)
        = Some (socketId + N.of_nat i + 1)%N.
Proof.
  induction connections as [|[params ctx] rest IH]; intros socketId.
  - simpl. split; [f_equal; lia|]. intros i ? ? Hi. by destruct i.
  - cbn [connectAll].
    destruct (onConnect_id params ctx socketId) as [Hcounter Hid].
    destruct (onConnect toLowerCase params ctx socketId)
      as [[socketId' ctx'] result].
    simpl in Hcounter, Hid. subst socketId'.
    destruct (IH (socketId + 1)%N) as [Hlast Hrest].
    destruct (connectAll toLowerCase rest (socketId + 1)) as [results last].
    simpl in *. split; [rewrite Hlast; lia|].
    intros [|i] connectionContext r Hi; simpl in Hi.
    + injection Hi as <- <-. rewrite Hid. f_equal. lia.
    + rewrite (Hrest i _ _ Hi). f_equal. lia.
Qed.

(** X12. Connections made one after the other get consecutive socket ids,
    each one more than the last, whether or not [onConnect] throws; so the
    context keys of two different connections never coincide, whatever
    operation ids their clients choose. *)
Theorem socket_ids_consecutive connections socketId :
  let made := connectAll toLowerCase connections socketId in
  made.2 = (socketId + N.of_nat (length connections))%N
  ∧ (∀ i connectionContext result,
       made.1 !! i = Some (connectionContext, result) →
       postgraphileId (socket connectionContext)
         = Some (socketId + N.of_nat i + 1)%N)
  ∧ (∀ i j ci ri cj rj opId opId',
       i ≠ j →
       made.1 !! i = Some (ci, ri) → made.1 !! j = Some (cj, rj) →
       contextKey (socket ci) opId ≠ contextKey (socket cj) opId').
Proof.
  intros made. destruct (connectAll_ids connections socketId) as [Hlast Hids].
  split_and!; [done|done|].
  intros i j ci ri cj rj opId opId' Hij Hi Hj [Hid _]%contextKey_inj.
  rewrite (Hids i _ _ Hi), (Hids j _ _ Hj) in Hid.
  injection Hid as Hid. lia.
Qed.

(** X13. [onConnect] throws exactly when the context has no request, or
    the client sent no parameters, or the authorization header is to be
    written (it is absent or empty and the normalized parameter is truthy)
    and [String(...)] of the parameter throws.  It has then already given
    the socket its id, and it has written neither a header nor the merged
    headers.  In the first two cases it has stashed nothing; in the third
    it throws the error of [String(...)] and the request, carrying the
    parameters, is already stashed on the socket. *)
Theorem onConnect_throws_iff connectionParams connectionContext socketId :
  let r := onConnect toLowerCase connectionParams connectionContext socketId in
  let authorization := authorizationParam toLowerCase connectionParams in
  ((∃ e, r.2 = Throw e)
   ↔ request connectionContext = None ∨ connectionParams = None
     ∨ ∃ req, request connectionContext = Some req
         ∧ truthyStr (headers req !! "authorization") = false
         ∧ truthy authorization = true
         ∧ ∃ e, String_ authorization = Throw e)
  ∧ (request connectionContext = None ∨ connectionParams = None →
     request r.1.2 = request connectionContext
     ∧ __postgraphileReq (socket r.1.2)
       = __postgraphileReq (socket connectionContext))
  ∧ (∀ e, r.2 = Throw e →
     headers <$> request r.1.2 = headers <$> request connectionContext
     ∧ postgraphileHeaders (socket r.1.2)
       = postgraphileHeaders (socket connectionContext)
     ∧ postgraphileId (socket r.1.2) = Some (socketId + 1)%N)
  ∧ (∀ req params e,
       request connectionContext = Some req →
       connectionParams = Some params → r.2 = Throw e →
       String_ authorization = Throw e
       ∧ request r.1.2
         = Some (stash params (lowerCaseKeys toLowerCase params) req)
       ∧ __postgraphileReq (socket r.1.2) = request r.1.2).
Proof.
  intros r authorization.
  destruct (request connectionContext) as [req|] eqn:Hreq.
  2:{ unfold r, onConnect. rewrite Hreq. simpl. split_and!; try done.
      split; [by left|by eexists]. }
  destruct connectionParams as [params|].
  2:{ unfold r, onConnect. rewrite Hreq. simpl. split_and!; try done.
      split; [by right; left|by eexists]. }
  destruct (onConnect_request toLowerCase params connectionContext socketId
              req Hreq) as (Hrequest & Hstashed & Hmerged & Hresult).
  destruct (onConnect_id (Some params) connectionContext socketId)
    as [_ Hid].
  fold r in Hrequest, Hstashed, Hmerged, Hresult, Hid.
  unfold authorization. simpl.
  destruct (backfill_cases (lowerCaseKeys toLowerCase params) (headers req))
    as [(Hh & Hp & [(s & Hs & Hb)|(e & He & Hb)])|[Hno Hb]];
    rewrite Hb in Hrequest, Hmerged, Hresult.
  - rewrite Hresult. split_and!.
    + split; [by intros [? ?]|].
      intros [?|[?|(r' & [= <-] & _ & _ & e & He)]]; congruence.
    + by intros [?|?].
    + done.
    + done.
  - rewrite Hresult. split_and!.
    + split; [|by eexists]. intros _. right. right. exists req.
      split_and!; [done..|by eexists].
    + by intros [?|?].
    + intros e' _. by rewrite Hrequest, Hmerged, Hid.
    + intros r' params' e' [= <-] [= <-] [= <-].
      by rewrite Hstashed, Hrequest.
  - rewrite Hresult. split_and!.
    + split; [by intros [? ?]|].
      intros [?|[?|(r' & [= <-] & Hh & Hp & _)]]; try congruence.
      destruct Hno; congruence.
    + by intros [?|?].
    + done.
    + done.
Qed.

(** X14. When [onConnect] returns, the real headers win in the merged
    [postgraphileHeaders]: a key the request has (after the authorization
    backfill) shows the request's value, and any other key shows the own
    property of the normalized connection parameters, if there is one. *)
Theorem real_headers_win connectionParams connectionContext socketId :
  let r := onConnect toLowerCase connectionParams connectionContext socketId in
  r.2 = Ok () →
  ∃ params merged req,
    connectionParams = Some params
    ∧ postgraphileHeaders (socket r.1.2) = Some merged
    ∧ request r.1.2 = Some req
    ∧ ∀ k, merged !! k
           = match headers req !! k with
             | Some h => Some (VStr h)
             | None => own (lowerCaseKeys toLowerCase params) !! k
             end.
Proof.
  intros r. unfold r, onConnect.
  destruct (request connectionContext) as [req|]; [|done].
  destruct connectionParams as [params|]; [|done]. simpl.
  destruct (backfill _ _) as [hs|e]; [|done]. simpl. intros _.
  eexists _, _, _. split_and!; [done..|].
  intros k. unfold spread. simpl. rewrite lookup_union, lookup_fmap.
  destruct (hs !! k); simpl; [by rewrite union_Some_l|].
  by rewrite (left_id None _).
Qed.

(** X15. Every own key of the object [lowerCaseKeys] builds is the
    lower-cased key of an entry of the argument and holds that entry's
    value; of the entries whose keys lower-case to one key other than
    [__proto__], the last one wins; and an entry leaves the own properties
    under every other key as they were. *)
Theorem lowerCaseKeys_normalizes obj :
  (∀ k v, own (lowerCaseKeys toLowerCase obj) !! k = Some v →
     ∃ key, (key, v) ∈ obj ∧ toLowerCase key = k)
  ∧ (∀ key v, toLowerCase key ≠ "__proto__" →
       getProperty (lowerCaseKeys toLowerCase (obj ++ [(key, v)]))
         (toLowerCase key) = v)
  ∧ (∀ key v k, k ≠ toLowerCase key →
       own (lowerCaseKeys toLowerCase (obj ++ [(key, v)])) !! k
       = own (lowerCaseKeys toLowerCase obj) !! k).
Proof.
  split_and!.
  - induction obj as [|[key v] obj IH] using rev_ind; intros k w.
    { unfold lowerCaseKeys. simpl. by rewrite lookup_empty. }
    rewrite lowerCaseKeys_snoc. simpl.
    intros [Hold|[-> ->]]%setProperty_own.
    + destruct (IH k w Hold) as (key' & Hin & Hkey').
      exists key'. split; [|done]. apply elem_of_app. by left.
    + exists key. split; [|done].
      apply elem_of_app. right. by apply list_elem_of_singleton.
  - intros key v Hproto. rewrite lowerCaseKeys_snoc.
    unfold setProperty.
    assert (String.eqb (toLowerCase key) "__proto__" = false) as ->
      by by apply String.eqb_neq.
    unfold getProperty. simpl. by rewrite lookup_insert_eq.
  - intros key v k Hk. rewrite lowerCaseKeys_snoc.
    by apply setProperty_own_other.
Qed.

(** X16. Once [onConnect] has a request and parameters, the request the
    bridge takes from the socket is the request of the connection as
    [onConnect] has left it, whether it returned or threw in [String(...)]:
    it carries the client's parameters, raw and normalized, and, when the
    authorization header was to be written and [String(...)] returned, the
    header written after the request was stashed. *)
Theorem bridge_sees_connected_request options params connectionContext
    socketId req :
  request connectionContext = Some req → res req = false →
  let made :=
    (onConnect toLowerCase (Some params) connectionContext socketId).1.2 in
  let started := Bridge.reqResFromSocket options (worldOf made) in
  ∃ r, Schedule.taskReq started.2 = Some r
    ∧ request made = Some r
    ∧ connectionParams r = Some params
    ∧ normalizedConnectionParams r = Some (lowerCaseKeys toLowerCase params)
    ∧ (truthyStr (headers req !! "authorization") = false →
       truthy (authorizationParam toLowerCase (Some params)) = true →
       ∀ s, String_ (authorizationParam toLowerCase (Some params)) = Ok s →
       headers r !! "authorization" = Some s).
Proof.
  intros Hreq Hres made started.
  destruct (onConnect_request toLowerCase params connectionContext socketId
              req Hreq) as (Hrequest & Hstashed & _).
  fold made in Hrequest, Hstashed.
  eexists. split_and!; [|exact Hrequest|..].
  - unfold started, Bridge.reqResFromSocket, worldOf. simpl.
    rewrite Hstashed, Hrequest.
    assert (Hres' : res (match backfill (lowerCaseKeys toLowerCase params)
                                 (headers req) with
                         | Ok hs => setHeaders hs
                             (stash params (lowerCaseKeys toLowerCase params) req)
                         | Throw _ =>
                             stash params (lowerCaseKeys toLowerCase params) req
                         end) = false).
    { by destruct (backfill _ _). }
    rewrite Hres'.
    destruct (__postgraphileRes (socket made)); [done|].
    cbn -[Bridge.invoke]. by destruct (Bridge.chain options).
  - by destruct (backfill _ _).
  - by destruct (backfill _ _).
  - simpl. intros Hh Hp s Hs.
    destruct (backfill_cases (lowerCaseKeys toLowerCase params) (headers req))
      as [(_ & _ & [(s' & Hs' & ->)|(e & He & _)])|[Hno _]].
    + simpl. rewrite Hs in Hs'. injection Hs' as <-.
      by rewrite lookup_insert_eq.
    + congruence.
    + destruct Hno; congruence.
Qed.

End WithToLowerCase.

Lemma onConnect_throws_iff_witness :
  let r :=
    onConnect Examples.toLowerCaseAscii
      (Some [("Authorization", Examples.noStringForm)])
      Examples.noAuthorization 0 in
  r.2 = Throw (newError "Cannot convert object to primitive value")
  ∧ headers <$> request r.1.2 = Some ∅
  ∧ postgraphileHeaders (socket r.1.2) = None
  ∧ __postgraphileReq (socket r.1.2) = request r.1.2.
Proof.
  intros r.
  destruct (onConnect_throws_iff Examples.toLowerCaseAscii
              (Some [("Authorization", Examples.noStringForm)])
              Examples.noAuthorization 0)
    as (_ & _ & Hthrown & Hstashed).
  destruct (Hthrown (newError "Cannot convert object to primitive value"))
    as (Hheaders & Hmerged & _); [reflexivity|].
  destruct (Hstashed Examples.request0
              [("Authorization", Examples.noStringForm)]
              (newError "Cannot convert object to primitive value"))
    as (_ & _ & Hreq); [reflexivity..|].
  split_and!; [reflexivity|exact Hheaders|exact Hmerged|exact Hreq].
Defined.

Lemma real_headers_win_witness :
  let made :=
    (onConnect Examples.toLowerCaseAscii
       (Some [("Origin", VStr "evil"); ("X-Trace", VStr "t1")])
       {| socket := newSocket;
          request := Some {| url := Some "/graphql";
                             headers := {["origin" := "https://app"]};
                             res := false; connectionParams := None;
                             normalizedConnectionParams := None |} |}
       0).1.2 in
  ∃ merged, postgraphileHeaders (socket made) = Some merged
    ∧ merged !! "origin" = Some (VStr "https://app")
    ∧ merged !! "x-trace" = Some (VStr "t1").
Proof.
  intros made.
  destruct (real_headers_win Examples.toLowerCaseAscii
              (Some [("Origin", VStr "evil"); ("X-Trace", VStr "t1")])
              {| socket := newSocket;
                 request := Some {| url := Some "/graphql";
                                    headers := {["origin" := "https://app"]};
                                    res := false; connectionParams := None;
                                    normalizedConnectionParams := None |} |}
              0) as (params & merged & req & Hp & Hmerged & Hreq & Hk);
    [vm_compute; reflexivity|].
  exists merged. split; [exact Hmerged|].
  injection Hp as <-. vm_compute in Hreq. injection Hreq as <-.
  split; rewrite Hk; vm_compute; reflexivity.
Defined.

Lemma bridge_sees_connected_request_witness :
  let made :=
    (onConnect Examples.toLowerCaseAscii
       (Some [("Authorization", VStr "Bearer t")])
       Examples.noAuthorization 0).1.2 in
  ∃ r, Schedule.taskReq
         (Bridge.reqResFromSocket Examples.options1 (worldOf made)).2 = Some r
    ∧ headers r !! "authorization" = Some "Bearer t".
Proof.
  intros made.
  destruct (bridge_sees_connected_request Examples.toLowerCaseAscii
              Examples.options1
              [("Authorization", VStr "Bearer t")]
              Examples.noAuthorization 0 Examples.request0 eq_refl eq_refl)
    as (r & Hr & _ & _ & _ & Hauth).
  exists r. split; [exact Hr|].
  apply (Hauth eq_refl eq_refl "Bearer t" eq_refl).
Defined.

End ConnectionsFacts.

(** ** More on [onOperation]: when it succeeds and how it fails *)
Module OperationOutcomes.
Import JS Operation.

Section WithCollaborators.
Context {GraphQLSchema DocumentNode ValidationRule Variables mixed Data : Type}.
Context (validate : GraphQLSchema → DocumentNode → list ValidationRule →
                    Result (list GraphQL.GraphQLError))
        (parse : string → Result DocumentNode)
        (handleErrors : list GraphQL.GraphQLError → IncomingMessage →
                        ServerResponse → list GraphQL.GraphQLError)
        (isEmpty : gmap string value → bool)
        (validationRulesHook :
           list ValidationRule → @ValidationHookContext Variables →
           Result (list ValidationRule))
        (options_pluginHook :
           option (@ExecutionParams GraphQLSchema DocumentNode Variables mixed Data →
                   Result
                     (@ExecutionParams GraphQLSchema DocumentNode Variables mixed Data
                      * @ExecutionParams GraphQLSchema DocumentNode Variables mixed Data))).

(** X17. [onOperation] hands parameters to the execution engine exactly
    when its preparation succeeds and either the dynamic hook yields no
    rule or [validate] finds no error; with no rule, [validate] is not
    consulted, so its verdict does not matter. *)
Theorem onOperation_succeeds_iff params awaitedContext awaitedSchema
    awaitedReqRes final :
  onOperation validate parse handleErrors isEmpty validationRulesHook
    options_pluginHook params awaitedContext awaitedSchema awaitedReqRes
    = Ok final
  ↔ ∃ p,
      prepare parse handleErrors isEmpty validationRulesHook
        options_pluginHook params awaitedContext awaitedSchema awaitedReqRes
        = Ok p
      ∧ final = finalParams p
      ∧ (moreValidationRules p = []
         ∨ validate (paramsSchema p) (finalQuery p) (moreValidationRules p)
           = Ok []).
Proof.
  unfold onOperation.
  destruct (prepare _ _ _ _ _ _ _ _ _) as [p|e]; simpl.
  - unfold validateDynamic.
    destruct (moreValidationRules p) as [|r rs] eqn:Hr; simpl.
    + split.
      * intros [= <-]. exists p. rewrite Hr. by split_and!; [..|left].
      * by intros (p' & [= <-] & -> & _).
    + destruct (validate _ _ _) as [[|v vs]|e] eqn:Hv; simpl.
      * split.
        -- intros [= <-]. exists p. rewrite Hr, Hv. by split_and!; [..|right].
        -- by intros (p' & [= <-] & -> & _).
      * split; [done|]. intros (p' & [= <-] & _ & [Hn|Hn]).
        -- by rewrite Hr in Hn.
        -- by rewrite Hr, Hv in Hn.
      * split; [done|]. intros (p' & [= <-] & _ & [Hn|Hn]).
        -- by rewrite Hr in Hn.
        -- by rewrite Hr, Hv in Hn.
  - split; [done|]. by intros (p' & ? & _).
Qed.

(** X18. [onOperation] fails only with the error of an awaited step (the
    context, the schema, the request/response pair), with the error thrown
    by [options.pluginHook], with the error of [parse] on the query text
    the hook has left, with the error thrown by the dynamic rules hook or
    by [validate], or with the aggregate of a non-empty list of validation
    errors found under at least one dynamic rule. *)
Theorem onOperation_failures params awaitedContext awaitedSchema
    awaitedReqRes e :
  onOperation validate parse handleErrors isEmpty validationRulesHook
    options_pluginHook params awaitedContext awaitedSchema awaitedReqRes
    = Throw e →
  awaitedContext = Throw e ∨ awaitedSchema = Throw e
  ∨ awaitedReqRes = Throw e
  ∨ ∃ context_ schema_ req res,
      awaitedContext = Ok context_ ∧ awaitedSchema = Ok schema_
      ∧ awaitedReqRes = Ok (req, res)
      ∧ ((∃ hook, options_pluginHook = Some hook
            ∧ hook (received handleErrors isEmpty params context_ schema_
                      req res) = Throw e)
         ∨ ∃ params' hookedParams,
             hooked options_pluginHook
               (received handleErrors isEmpty params context_ schema_ req res)
             = Ok (params', hookedParams)
             ∧ ((∃ text, query hookedParams = inl text ∧ parse text = Throw e)
                ∨ validationRulesHook [] (hookContext params' req res)
                  = Throw e
                ∨ ∃ p,
                    prepare parse handleErrors isEmpty validationRulesHook
                      options_pluginHook params awaitedContext awaitedSchema
                      awaitedReqRes = Ok p
                    ∧ moreValidationRules p ≠ []
                    ∧ (validate (paramsSchema p) (finalQuery p)
                         (moreValidationRules p) = Throw e
                       ∨ ∃ validationErrors,
                           validate (paramsSchema p) (finalQuery p)
                             (moreValidationRules p) = Ok validationErrors
                           ∧ validationErrors ≠ []
                           ∧ e = {| message :=
                                      validationMessage validationErrors;
                                    errors := Some validationErrors |}))).
Proof.
  unfold onOperation.
  destruct awaitedContext as [context_|?]; [|intros [= ->]; auto].
  destruct awaitedSchema as [schema_|?]; [|intros [= ->]; auto].
  destruct awaitedReqRes as [[req res]|?]; [|intros [= ->]; auto].
  intros Hthrow. do 3 right. exists context_, schema_, req, res.
  split_and!; [done..|].
  destruct (prepare _ _ _ _ _ _ _ _ _) as [p|e'] eqn:Hp.
  - assert (Hhooked : ∃ params' hookedParams,
              hooked options_pluginHook
                (received handleErrors isEmpty params context_ schema_ req res)
              = Ok (params', hookedParams)).
    { revert Hp. unfold prepare. simpl.
      destruct (hooked _ _) as [[params' hookedParams]|]; [|done].
      by eexists _, _. }
    destruct Hhooked as (params' & hookedParams & Hhooked).
    right. exists params', hookedParams. split; [done|].
    right. right. exists p. split; [done|].
    revert Hthrow. simpl. unfold validateDynamic.
    destruct (moreValidationRules p) as [|r rs]; simpl; [done|].
    split; [done|].
    destruct (validate _ _ _) as [[|v vs]|e'] eqn:Hv; simpl in *; try done.
    + right. exists (v :: vs). by simplify_eq.
    + left. by simplify_eq.
  - revert Hthrow Hp. simpl. intros [= ->]. unfold prepare. simpl.
    destruct (hooked _ _) as [[params' hookedParams]|e'] eqn:Hhooked; simpl.
    2:{ intros [= ->]. left. revert Hhooked. unfold hooked.
        destruct options_pluginHook as [hook|]; [|done]. by exists hook. }
    intros Hrest. right. exists params', hookedParams. split; [done|].
    destruct (query hookedParams) as [text|document] eqn:Hq; simpl in Hrest.
    + destruct (parse text) as [d|e'] eqn:Hparse; simpl in Hrest.
      * right. left. revert Hrest.
        by destruct (validationRulesHook _ _) as [rules|e'']; intros [= ->].
      * left. exists text. by simplify_eq.
    + right. left. revert Hrest.
      by destruct (validationRulesHook _ _) as [rules|e'']; intros [= ->].
Qed.

(** X19. With no [options.pluginHook], a prepared operation carries the
    freshly fetched schema, not the one its parameters arrived with, and
    [validate] is given that fresh schema; its context is the arriving one
    overlaid with the provider's, whose keys win; its variables and
    operation name are untouched; and its query is a parsed document. *)
Theorem prepare_without_hook
    (params : @ExecutionParams GraphQLSchema DocumentNode Variables mixed Data)
    (c : gmap string mixed) (s : GraphQLSchema) req res
    (p : @Prepared GraphQLSchema DocumentNode ValidationRule Variables mixed Data) :
  prepare parse handleErrors isEmpty validationRulesHook None params
    (Ok c) (Ok s) (Ok (req, res)) = Ok p →
  paramsSchema p = s
  ∧ schema (finalParams p) = s
  ∧ (∀ k, context (finalParams p) !! k
          = match c !! k with
            | Some v => Some v
            | None => context params !! k
            end)
  ∧ variables (finalParams p) = variables params
  ∧ operationName (finalParams p) = operationName params
  ∧ query (finalParams p) = inr (finalQuery p)
  ∧ match query params with
    | inl text => parse text = Ok (finalQuery p)
    | inr document => finalQuery p = document
    end.
Proof.
  unfold prepare. simpl.
  destruct (query params) as [text|document] eqn:Hq; simpl.
  - destruct (parse text) as [d|] eqn:Hparse; simpl; [|done].
    destruct (validationRulesHook _ _) as [rules|]; simpl; [|done].
    intros [= <-]. simpl. split_and!; try done.
    intros k. rewrite lookup_union. destruct (c !! k); simpl;
      [by rewrite union_Some_l|by rewrite (left_id None _)].
  - destruct (validationRulesHook _ _) as [rules|]; simpl; [|done].
    intros [= <-]. simpl. split_and!; try done.
    intros k. rewrite lookup_union. destruct (c !! k); simpl;
      [by rewrite union_Some_l|by rewrite (left_id None _)].
Qed.

End WithCollaborators.
Lemma onOperation_failures_witness :
  ∃ e, onOperation Cases.rejectEach (λ _, Ok ()) (λ es _ _, es) (λ _, true)
         Cases.oneRule None Cases.staleParams (Ok ∅) (Ok "fresh")
         (Ok (Examples.request0, 0)) = Throw e
    ∧ ∃ p validationErrors,
        prepare (λ _, Ok ()) (λ es _ _, es) (λ _, true) Cases.oneRule None
          Cases.staleParams (Ok ∅) (Ok "fresh") (Ok (Examples.request0, 0))
        = Ok p
        ∧ Cases.rejectEach (paramsSchema p) (finalQuery p)
            (moreValidationRules p) = Ok validationErrors
        ∧ e = {| message := validationMessage validationErrors;
                 errors := Some validationErrors |}.
Proof.
  eexists. split; [reflexivity|].
  destruct (onOperation_failures Cases.rejectEach (λ _, Ok ())
              (λ es _ _, es) (λ _, true) Cases.oneRule None
              Cases.staleParams (Ok ∅) (Ok "fresh")
              (Ok (Examples.request0, 0)) _ eq_refl)
    as [?|[?|[?|(c & sch & req & res & _ & _ & _ & Hwhy)]]]; try done.
  destruct Hwhy as [(hook & ? & _)|(p' & h & _ & Hwhy)]; [done|].
  destruct Hwhy as [(text & _ & ?)|[?|(p & Hp & _ & Hvalidate)]]; try done.
  destruct Hvalidate as [?|(errs & Herrs & _ & He)]; [done|].
  by exists p, errs.
Defined.

Lemma prepare_without_hook_witness :
  ∃ p, prepare (λ _, Ok ()) (λ es _ _, es) (λ _, true) Cases.noRules None
         Cases.staleParams (Ok {["user" := 7]}) (Ok "fresh")
         (Ok (Examples.request0, 0)) = Ok p
    ∧ paramsSchema p = "fresh"
    ∧ context (finalParams p) !! "user" = Some 7
    ∧ context (finalParams p) !! "role" = Some 2.
Proof.
  eexists. split; [reflexivity|].
  destruct (prepare_without_hook (λ _, Ok ()) (λ es _ _, es) (λ _, true)
              Cases.noRules Cases.staleParams {["user" := 7]} "fresh"
              Examples.request0 0 _ eq_refl)
    as (Hschema & _ & Hcontext & _).
  split; [exact Hschema|]. split; rewrite Hcontext; reflexivity.
Defined.

End OperationOutcomes.

(** ** More on installation and routing *)
Module RouterFacts.
Import JS Upgrade Router.

Lemma enhance_marked {GraphQLSchema : Type}
    (awaitedSchema : Result GraphQLSchema) options srv :
  __postgraphileSubscriptionsEnabled srv = true →
  enhance awaitedSchema options srv = srv.
Proof.
  intros Hmarked. unfold enhance, enhanceHttpServerWithSubscriptions.
  by rewrite Hmarked.
Qed.

Lemma enhanceAll_marked {GraphQLSchema : Type}
    (calls : list (Result GraphQLSchema * Options)) srv :
  __postgraphileSubscriptionsEnabled srv = true →
  enhanceAll calls srv = srv.
Proof.
  intros Hmarked. unfold enhanceAll.
  induction calls as [|call calls IH]; simpl; [done|].
  by rewrite enhance_marked.
Qed.

Lemma graphqlRouteOf_nonempty options : graphqlRouteOf options ≠ "".
Proof.
  unfold graphqlRouteOf. destruct (graphqlRoute options) as [route|]; [|done].
  destruct (String.eqb_spec route ""); done.
Qed.

(** X20. When the schema provider fails during the first call, the server
    is left marked with nothing installed, and it stays so: every later
    call, even one whose schema provider answers, returns at once and
    attaches no upgrade listener and creates no subscription server. *)
Theorem failed_schema_blocks_installation {GraphQLSchema : Type}
    (srv : Server) (options : Options) (e : Error)
    (calls : list (Result GraphQLSchema * Options)) :
  __postgraphileSubscriptionsEnabled srv = false →
  let failed := enhance (Throw e : Result GraphQLSchema) options srv in
  __postgraphileSubscriptionsEnabled failed = true
  ∧ upgradeListeners failed = upgradeListeners srv
  ∧ subscriptionServers failed = subscriptionServers srv
  ∧ enhanceAll calls failed = failed.
Proof.
  intros Hfresh failed.
  assert (Hfailed : failed
    = {| __postgraphileSubscriptionsEnabled := true;
         upgradeListeners := upgradeListeners srv;
         subscriptionServers := subscriptionServers srv |}).
  { unfold failed, enhance, enhanceHttpServerWithSubscriptions.
    by rewrite Hfresh. }
  rewrite Hfailed. split_and!; try done. by apply enhanceAll_marked.
Qed.

Section WithParseUrl.
Context {Duplex Buffer : Type} (parseUrl : IncomingMessage → option Url).


(** X22. The configured route is never the empty string, so an upgrade
    request whose URL cannot be parsed, or whose parsed path is missing,
    null or empty, is never accepted, whatever the options. *)
Theorem unparsed_upgrade_ignored (options : Options) (req : IncomingMessage)
    (socket : Duplex) (head : Buffer) :
  parseUrl req = None
  ∨ (∃ u, parseUrl req = Some u
        ∧ (pathname u = PathnameUndefined ∨ pathname u = PathnameNull
           ∨ pathname u = PathnameString "")) →
  onUpgrade parseUrl (graphqlRouteOf options) req socket head = [].
Proof.
  pose proof (graphqlRouteOf_nonempty options) as Hroute.
  assert (Hempty : String.eqb "" (graphqlRouteOf options) = false).
  { apply String.eqb_neq. congruence. }
  unfold onUpgrade, pathnameOf.
  intros [-> | (u & -> & [-> | [-> | ->]])];
    unfold isGraphqlRoute; by rewrite ?Hempty.
Qed.

End WithParseUrl.

Lemma failed_schema_blocks_installation_witness :
  enhanceAll [(Ok (), Cases.routeOptions "/graphql"); (Ok (), Examples.defaults)]
    (enhance (Throw (newError "no database") : Result unit)
       Examples.defaults Cases.freshServer)
  = {| __postgraphileSubscriptionsEnabled := true;
       upgradeListeners := []; subscriptionServers := 0 |}.
Proof.
  destruct (failed_schema_blocks_installation Cases.freshServer
              Examples.defaults (newError "no database")
              [(Ok (), Cases.routeOptions "/graphql");
               (Ok (), Examples.defaults)] eq_refl) as (_ & _ & _ & ->).
  reflexivity.
Defined.


Lemma unparsed_upgrade_ignored_witness :
  onUpgrade (Duplex:=unit) (Buffer:=unit) Cases.parsePath
    (graphqlRouteOf (Cases.routeOptions "")) (Cases.requestTo None) () ()
  = [].
Proof.
  apply (unparsed_upgrade_ignored Cases.parsePath (Cases.routeOptions "")
           (Cases.requestTo None) () ()).
  left. reflexivity.
Defined.

End RouterFacts.
